(** * The legacy problem importer (scripts/import-legacy-problems.py)

    A shallow embedding of the script's expert-name resolver and of its two
    sheet importers, together with the properties stated about them.

    Modelling choices, in the order the file introduces them:
    - a Python [str] is a [string]; its characters are read as the code
      points 0..255, for which whitespace and lower-casing are written out
      as CPython defines them;
    - a spreadsheet cell is a [value]: [None], a string, an integer, a
      boolean or a float ([nan] being the missing-value sentinel); date
      cells are outside the model;
    - an exception is a value of [exn], and code that may raise returns a
      [result];
    - the [experts] and [problems] tables are finite maps, and the
      connection carries the transaction the driver opens implicitly;
      [NOW()] is the time of that transaction, a parameter of each import.

    The embedding comes first, then the notions the statements need, then
    the lemmas and the stated properties, component by component. *)

From Stdlib Require Import ZArith NArith String Ascii.
From Stdlib Require Import Floats.PrimFloat Floats.SpecFloat Floats.FloatOps.
From stdpp Require Import list strings pretty countable gmap.

Open Scope Z_scope.
Open Scope string_scope.

(** ** Exceptions and results *)

(** The exceptions the modelled code can raise. Only the class and the
    argument are kept, not the rendered message. *)
Inductive exn : Type :=
| KeyError (key : string)
| IndexError
| AttributeError
| ValueError (what : string)
| TypeError (what : string)
| OverflowError
| DatabaseError (msg : string)
| InFailedSqlTransaction.

Inductive result (A : Type) : Type :=
| Ok (a : A)
| Raise (e : exn).
Arguments Ok {A} a.
Arguments Raise {A} e.

#[global] Instance result_ret : MRet result := fun A a => Ok a.
#[global] Instance result_bind : MBind result := fun A B f m =>
  match m with
  | Ok a => f a
  | Raise e => Raise e
  end.
#[global] Instance result_fmap : FMap result := fun A B f m =>
  match m with
  | Ok a => Ok (f a)
  | Raise e => Raise e
  end.

(** ** Python strings *)

Module Py.

(** [str.isspace] of one character, as [str.strip] and [str.split] use it:
    TAB..CR, FS..US, space, NEL and the no-break space. *)
Definition isspace (c : ascii) : bool :=
  let n := N_of_ascii c in
  ((9 <=? n) && (n <=? 13) || (28 <=? n) && (n <=? 31) || (n =? 32)
   || (n =? 133) || (n =? 160))%N.

(** [str.lower] of one character: A..Z and the Latin-1 capitals
    U+00C0..U+00DE (the multiplication sign U+00D7 apart). *)
Definition lower_char (c : ascii) : ascii :=
  let n := N_of_ascii c in
  if ((65 <=? n) && (n <=? 90)
      || (192 <=? n) && (n <=? 222) && negb (n =? 215))%N
  then ascii_of_N (n + 32) else c.

Fixpoint lower (s : string) : string :=
  match s with
  | EmptyString => EmptyString
  | String c s' => String (lower_char c) (lower s')
  end.

Fixpoint lstrip (s : string) : string :=
  match s with
  | EmptyString => EmptyString
  | String c s' => if isspace c then lstrip s' else s
  end.

Fixpoint rstrip (s : string) : string :=
  match s with
  | EmptyString => EmptyString
  | String c s' =>
      match rstrip s' with
      | EmptyString => if isspace c then EmptyString else String c EmptyString
      | r => String c r
      end
  end.

(** [s.strip()] *)
Definition strip (s : string) : string := rstrip (lstrip s).

(** [s.split()]: the maximal runs of non-whitespace characters, in order.
    [cur] is the run being read. *)
Fixpoint split_from (cur : string) (s : string) : list string :=
  match s with
  | EmptyString => if bool_decide (cur = "") then [] else [cur]
  | String c s' =>
      if isspace c
      then (if bool_decide (cur = "") then split_from "" s' else cur :: split_from "" s')
      else split_from (cur ++ String c EmptyString) s'
  end.

Definition split (s : string) : list string := split_from "" s.

(** [l[0]] *)
Definition item0 {A : Type} (l : list A) : result A :=
  match l with
  | [] => Raise IndexError
  | x :: _ => Ok x
  end.

(** ** Python and pandas values *)

(** A cell of a sheet, or the value of [row.get] on a column the sheet
    lacks ([VNone]). pandas reads an empty cell as the float [nan]. *)
Inductive value : Type :=
| VNone
| VStr (s : string)
| VInt (n : Z)
| VBool (b : bool)
| VFloat (f : float).

(** [repr] of a float is not re-implemented: every result below holds for
    any such function. *)
Class FloatRepr := float_repr : float -> string.

(** [pd.isna(v)] and [pd.notna(v)] *)
Definition isna (v : value) : bool :=
  match v with
  | VNone => true
  | VFloat f => is_nan f
  | _ => false
  end.

Definition notna (v : value) : bool := negb (isna v).

(** [bool(v)], the truth value that [not v] negates *)
Definition truth (v : value) : bool :=
  match v with
  | VNone => false
  | VStr s => negb (bool_decide (s = ""))
  | VInt n => negb (n =? 0)%Z
  | VBool b => b
  | VFloat f => negb (is_zero f)
  end.

(** [str(v)] *)
Definition str {R : FloatRepr} (v : value) : string :=
  match v with
  | VNone => "None"
  | VStr s => s
  | VInt n => pretty n
  | VBool b => if b then "True" else "False"
  | VFloat f => float_repr f
  end.

(** The whitespace [int] skips around a literal: TAB..CR and space, and
    the two Latin-1 spaces, which the conversion first turns into spaces. *)
Definition int_space (c : ascii) : bool :=
  let n := N_of_ascii c in
  ((9 <=? n) && (n <=? 13) || (n =? 32) || (n =? 133) || (n =? 160))%N.

Definition digit_of (c : ascii) : option Z :=
  let n := N_of_ascii c in
  if ((48 <=? n) && (n <=? 57))%N then Some (Z.of_N n - 48) else None.

Fixpoint all_int_space (s : string) : bool :=
  match s with
  | EmptyString => true
  | String c s' => int_space c && all_int_space s'
  end.

(** The digits of a decimal literal, single underscores allowed between
    two digits, then trailing whitespace up to the end of the string.
    [after_digit] says that the previous character was a digit. *)
Fixpoint int_digits (acc : Z) (after_digit : bool) (s : string) : option Z :=
  match s with
  | EmptyString => if after_digit then Some acc else None
  | String c s' =>
      match digit_of c with
      | Some d => int_digits (10 * acc + d) true s'
      | None =>
          if negb after_digit then None
          else if bool_decide (c = "_"%char) then int_digits acc false s'
          else if int_space c && all_int_space s' then Some acc
          else None
      end
  end.

Fixpoint int_lstrip (s : string) : string :=
  match s with
  | EmptyString => EmptyString
  | String c s' => if int_space c then int_lstrip s' else s
  end.

(** [int(s)] for a string: whitespace, an optional sign, the digits. The
    interpreter's configurable cap on the number of digits is not modelled. *)
Definition int_of_string (s : string) : option Z :=
  match int_lstrip s with
  | String "+" s' => int_digits 0 false s'
  | String "-" s' => Z.opp <$> int_digits 0 false s'
  | s' => int_digits 0 false s'
  end.

(** [int(f)] for a float: truncation toward zero. *)
Definition int_of_float (f : float) : result Z :=
  match Prim2SF f with
  | S754_zero _ => Ok 0
  | S754_finite s m e =>
      let z := Z.shiftl (Z.pos m) e in
      Ok (if s then - z else z)
  | S754_infinity _ => Raise OverflowError
  | S754_nan => Raise (ValueError "nan")
  end.

(** [int(v)] *)
Definition int (v : value) : result Z :=
  match v with
  | VNone => Raise (TypeError "None")
  | VStr s =>
      match int_of_string s with
      | Some n => Ok n
      | None => Raise (ValueError s)
      end
  | VInt n => Ok n
  | VBool b => Ok (if b then 1 else 0)
  | VFloat f => int_of_float f
  end.

End Py.

Import Py.

(** ** Expert resolver *)

(** One round of the loop of [get_expert_id_map]: the lower-cased full name
    is registered unconditionally, the first token only when the key is
    free. A name without any token raises [IndexError] at [split()[0]]. *)
Definition register_expert (name_map : gmap string Z) (expert : Z * string)
  : result (gmap string Z) :=
  let '(id, name) := expert in
  let name_lower := lower name in
  let name_map := <[name_lower := id]> name_map in
  first_name ← item0 (split name_lower);
  if bool_decide (is_Some (name_map !! first_name))
  then Ok name_map
  else Ok (<[first_name := id]> name_map).

Fixpoint register_experts (name_map : gmap string Z) (experts : list (Z * string))
  : result (gmap string Z) :=
  match experts with
  | [] => Ok name_map
  | expert :: rest =>
      name_map' ← register_expert name_map expert;
      register_experts name_map' rest
  end.

(** [get_expert_id_map(conn)], given the rows [SELECT id, name FROM experts]
    returns. *)
Definition get_expert_id_map (experts : list (Z * string)) : result (gmap string Z) :=
  register_experts ∅ experts.

(** The same loop on the rows as the cursor hands them over, where [name]
    is [None] for a NULL: [name.lower()] then raises AttributeError. On rows
    whose names are all text this is [get_expert_id_map]. *)
Definition register_row (name_map : gmap string Z) (row : Z * option string)
  : result (gmap string Z) :=
  match row.2 with
  | None => Raise AttributeError
  | Some name => register_expert name_map (row.1, name)
  end.

Fixpoint register_rows (name_map : gmap string Z) (rows : list (Z * option string))
  : result (gmap string Z) :=
  match rows with
  | [] => Ok name_map
  | row :: rest =>
      name_map' ← register_row name_map row;
      register_rows name_map' rest
  end.

Definition get_expert_id_map_rows (rows : list (Z * option string))
  : result (gmap string Z) :=
  register_rows ∅ rows.

(** The [aliases] dictionary of [resolve_expert_name]. *)
Definition aliases : gmap string string :=
  list_to_map [
    ("rob", "robert alward");
    ("jerry", "jerry song");
    ("alex", "alex ishin");
    ("phil", "philip garbarini");
    ("zach", "zach barry");
    ("ryan", "ryan diebner");
    ("jackson", "jackson ozello");
    ("arielle", "arielle flynn");
    ("josh", "josh miller");
    ("sneh", "sneh kumar");
    ("kavi", "kavi munjal");
    ("lindsay", "lindsay saldebar");
    ("frank", "frank mork");
    ("prem", "prem patel");
    ("tyler", "tyler patterson");
    ("haylee", "haylee glenn");
    ("jack", "jack barnett");
    ("minesh", "minesh patel");
    ("jason", "jason dotzel");
    ("wyatt", "wyatt morgan");
    ("will", "will chen");
    ("justin", "justin hwang")
  ].

Section Resolver.
Context {R : FloatRepr}.

(** [str(name).strip().lower()] *)
Definition name_str (name : value) : string := lower (strip (str name)).

(** [resolve_expert_name(name, expert_map)]; [Ok None] is Python's [None]. *)
Definition resolve_expert_name (name : value) (expert_map : gmap string Z)
  : result (option Z) :=
  if isna name || negb (truth name) then Ok None
  else
    let name_str := name_str name in
    match expert_map !! name_str with
    | Some id => Ok (Some id)
    | None =>
        first_name ← item0 (split name_str);
        match expert_map !! first_name with
        | Some id => Ok (Some id)
        | None =>
            match aliases !! name_str with
            | Some full_name =>
                match expert_map !! full_name with
                | Some id => Ok (Some id)
                | None => Ok None
                end
            | None => Ok None
            end
        end
    end.

End Resolver.

(** ** The problems table and the connection *)

Inductive sqlval : Type :=
| SNull
| SInt (n : Z)
| SText (s : string)
| SBool (b : bool)
| STimestamp (t : Z).

#[global] Instance sqlval_eq_dec : EqDecision sqlval.
Proof. solve_decision. Defined.

#[global] Instance sqlval_countable : Countable sqlval.
Proof.
  refine (inj_countable'
    (fun v => match v with
              | SNull => inl ()
              | SInt n => inr (inl n)
              | SText s => inr (inr (inl s))
              | SBool b => inr (inr (inr (inl b)))
              | STimestamp t => inr (inr (inr (inr t)))
              end)
    (fun x => match x with
              | inl () => SNull
              | inr (inl n) => SInt n
              | inr (inr (inl s)) => SText s
              | inr (inr (inr (inl b))) => SBool b
              | inr (inr (inr (inr t))) => STimestamp t
              end) _).
  by intros [].
Defined.

(** The expressions of the two statements: a [%s] placeholder, a literal,
    [NOW()] and [EXCLUDED.column]. *)
Inductive sql_expr : Type :=
| Placeholder
| Literal (v : sqlval)
| NOW
| EXCLUDED (column : string).

(** [INSERT INTO problems (columns) VALUES (values)
     ON CONFLICT (conflict_target) DO UPDATE SET do_update_set] *)
Record statement : Type := {
  columns : list string;
  values : list sql_expr;
  conflict_target : list string;
  do_update_set : list (string * sql_expr)
}.

(** What the script leaves to the database: the defaults of the columns an
    INSERT does not list (they may depend on the statement's time), and the
    error, if any, the server answers a statement and its parameters with
    (a value outside a column's type, a failed constraint). *)
Class Schema : Type := {
  column_default : Z -> gmap string sqlval;
  violation : statement -> list sqlval -> option string
}.

(** A psycopg2 connection with autocommit off: the committed table, the
    table as the open transaction sees it, and whether the transaction is
    aborted. Rows are keyed by the values of the conflict target. *)
Record connection : Type := {
  committed : gmap (list sqlval) (gmap string sqlval);
  pending : gmap (list sqlval) (gmap string sqlval);
  failed : bool
}.

(** A connection with nothing pending on the given table. *)
Definition connect (tbl : gmap (list sqlval) (gmap string sqlval)) : connection :=
  {| committed := tbl; pending := tbl; failed := false |}.

(** The VALUES list with the parameters bound to its placeholders, in
    order; [None] when the counts differ. *)
Fixpoint bind_values (now : Z) (vals : list sql_expr) (params : list sqlval)
  : option (list sqlval) :=
  match vals with
  | [] => match params with [] => Some [] | _ :: _ => None end
  | Placeholder :: vals' =>
      match params with
      | [] => None
      | p :: params' => cons p <$> bind_values now vals' params'
      end
  | Literal v :: vals' => cons v <$> bind_values now vals' params
  | NOW :: vals' => cons (STimestamp now) <$> bind_values now vals' params
  | EXCLUDED _ :: _ => None
  end.

(** The value of a SET clause's right-hand side; [excluded] is the row
    proposed for insertion. *)
Definition eval_set (now : Z) (excluded : gmap string sqlval) (e : sql_expr) : sqlval :=
  match e with
  | Placeholder => SNull
  | Literal v => v
  | NOW => STimestamp now
  | EXCLUDED c => default SNull (excluded !! c)
  end.

Section Database.
Context {D : Schema}.

(** The row proposed for insertion: the listed columns, then the defaults. *)
Definition proposed_row (now : Z) (s : statement) (vals : list sqlval)
  : gmap string sqlval :=
  list_to_map (zip (columns s) vals) ∪ column_default now.

Definition conflict_key (s : statement) (excluded : gmap string sqlval) : list sqlval :=
  (fun c => default SNull (excluded !! c)) <$> conflict_target s.

Definition set_values (now : Z) (s : statement) (excluded : gmap string sqlval)
  : gmap string sqlval :=
  list_to_map (prod_map id (eval_set now excluded) <$> do_update_set s).

(** The effect of the statement on the table. *)
Definition upsert (now : Z) (s : statement) (vals : list sqlval)
    (tbl : gmap (list sqlval) (gmap string sqlval))
  : gmap (list sqlval) (gmap string sqlval) :=
  let excluded := proposed_row now s vals in
  let key := conflict_key s excluded in
  match tbl !! key with
  | None => <[key := excluded]> tbl
  | Some old => <[key := set_values now s excluded ∪ old]> tbl
  end.

(** [cursor.execute(sql, params)] inside the transaction that started at
    time [now]. Once a statement has failed on the server, the transaction
    is aborted and the server refuses every later statement. *)
Definition execute (now : Z) (c : connection) (s : statement) (params : list sqlval)
  : connection * result unit :=
  match bind_values now (values s) params with
  | None => (c, Raise (TypeError "not all arguments converted"))
  | Some vals =>
      if failed c then (c, Raise InFailedSqlTransaction)
      else
        match violation s params with
        | Some msg =>
            ({| committed := committed c; pending := pending c; failed := true |},
             Raise (DatabaseError msg))
        | None =>
            ({| committed := committed c;
                pending := upsert now s vals (pending c);
                failed := false |},
             Ok ())
        end
  end.

(** [conn.commit()]: COMMIT on an aborted transaction rolls it back. *)
Definition commit (c : connection) : connection :=
  if failed c then connect (committed c) else connect (pending c).

End Database.

(** ** The two importers *)

(** A row of a data frame, by column label. *)
Definition getitem (row : gmap string value) (col : string) : result value :=
  match row !! col with
  | Some v => Ok v
  | None => Raise (KeyError col)
  end.

Definition get (row : gmap string value) (col : string) : value :=
  default VNone (row !! col).

(** An expert id, or NULL for Python's [None]. *)
Definition id_param (id : option Z) : sqlval :=
  match id with
  | Some n => SInt n
  | None => SNull
  end.

Definition pe_sql : statement := {|
  columns := [
    "problem_id"; "spec_number"; "environment"; "status";
    "sme_id"; "reviewer_id"; "final_reviewer_id"; "engineer_id";
    "week"; "separate_environment_init";
    "problem_doc"; "ground_truth"; "spec_folder"; "spec_doc"; "spec_data_folder";
    "docker_container"; "pr_link"; "blocker_reason";
    "sonnet_pass_rate"; "opus_pass_rate"; "explainer_video";
    "source"; "created_at" ];
  values := [
    Placeholder; Placeholder; Literal (SText "PE"); Placeholder;
    Placeholder; Placeholder; Placeholder; Placeholder;
    Placeholder; Placeholder;
    Placeholder; Placeholder; Placeholder; Placeholder; Placeholder;
    Placeholder; Placeholder; Placeholder;
    Placeholder; Placeholder; Placeholder;
    Literal (SText "legacy_sheets"); NOW ];
  conflict_target := [ "problem_id"; "environment" ];
  do_update_set := [
    ("spec_number", EXCLUDED "spec_number");
    ("status", EXCLUDED "status");
    ("sme_id", EXCLUDED "sme_id");
    ("reviewer_id", EXCLUDED "reviewer_id");
    ("final_reviewer_id", EXCLUDED "final_reviewer_id");
    ("engineer_id", EXCLUDED "engineer_id");
    ("week", EXCLUDED "week");
    ("separate_environment_init", EXCLUDED "separate_environment_init");
    ("problem_doc", EXCLUDED "problem_doc");
    ("ground_truth", EXCLUDED "ground_truth");
    ("spec_folder", EXCLUDED "spec_folder");
    ("spec_doc", EXCLUDED "spec_doc");
    ("spec_data_folder", EXCLUDED "spec_data_folder");
    ("docker_container", EXCLUDED "docker_container");
    ("pr_link", EXCLUDED "pr_link");
    ("blocker_reason", EXCLUDED "blocker_reason");
    ("sonnet_pass_rate", EXCLUDED "sonnet_pass_rate");
    ("opus_pass_rate", EXCLUDED "opus_pass_rate");
    ("explainer_video", EXCLUDED "explainer_video");
    ("source", Literal (SText "legacy_sheets"));
    ("updated_at", NOW) ]
|}.

Definition ib_sql : statement := {|
  columns := [
    "problem_id"; "spec_number"; "environment"; "status";
    "sme_id"; "reviewer_id"; "final_reviewer_id"; "engineer_id";
    "week"; "separate_environment_init";
    "problem_doc"; "ground_truth"; "spec_folder"; "spec_doc"; "spec_data_folder";
    "docker_container"; "pr_link"; "blocker_reason";
    "sonnet_pass_rate"; "opus_pass_rate";
    "source"; "created_at" ];
  values := [
    Placeholder; Placeholder; Literal (SText "IB"); Placeholder;
    Placeholder; Placeholder; Placeholder; Placeholder;
    Placeholder; Placeholder;
    Placeholder; Placeholder; Placeholder; Placeholder; Placeholder;
    Placeholder; Placeholder; Placeholder;
    Placeholder; Placeholder;
    Literal (SText "legacy_sheets"); NOW ];
  conflict_target := [ "problem_id"; "environment" ];
  do_update_set := [
    ("spec_number", EXCLUDED "spec_number");
    ("status", EXCLUDED "status");
    ("sme_id", EXCLUDED "sme_id");
    ("reviewer_id", EXCLUDED "reviewer_id");
    ("final_reviewer_id", EXCLUDED "final_reviewer_id");
    ("engineer_id", EXCLUDED "engineer_id");
    ("week", EXCLUDED "week");
    ("separate_environment_init", EXCLUDED "separate_environment_init");
    ("problem_doc", EXCLUDED "problem_doc");
    ("ground_truth", EXCLUDED "ground_truth");
    ("spec_folder", EXCLUDED "spec_folder");
    ("spec_doc", EXCLUDED "spec_doc");
    ("spec_data_folder", EXCLUDED "spec_data_folder");
    ("docker_container", EXCLUDED "docker_container");
    ("pr_link", EXCLUDED "pr_link");
    ("blocker_reason", EXCLUDED "blocker_reason");
    ("sonnet_pass_rate", EXCLUDED "sonnet_pass_rate");
    ("opus_pass_rate", EXCLUDED "opus_pass_rate");
    ("source", Literal (SText "legacy_sheets"));
    ("updated_at", NOW) ]
|}.

(** What an importer has accumulated: the connection, the two counters and
    the error list, an entry being the row index and the exception of
    [f"Row {idx}: {str(e)}"]. After the loop this is also what the function
    leaves behind: it prints both counters and the first errors and returns
    [imported]. *)
Record progress : Type := {
  conn : connection;
  imported : nat;
  skipped : nat;
  errors : list (nat * exn)
}.

Section Importers.
Context {R : FloatRepr} {D : Schema}.

(** [int(row[col]) if pd.notna(row.get(col)) else None] *)
Definition int_or_null (row : gmap string value) (col : string) : result sqlval :=
  if notna (get row col) then v ← getitem row col; n ← int v; Ok (SInt n)
  else Ok SNull.

(** [str(row[col]) if pd.notna(row.get(col)) else None] *)
Definition str_or_null (row : gmap string value) (col : string) : result sqlval :=
  if notna (get row col) then v ← getitem row col; Ok (SText (str v))
  else Ok SNull.

(** [bool(row[col]) if pd.notna(row.get(col)) else False] *)
Definition bool_or_false (row : gmap string value) (col : string) : result sqlval :=
  if notna (get row col) then v ← getitem row col; Ok (SBool (truth v))
  else Ok (SBool false).

(** [str(row['ID']) if pd.notna(row['ID']) else None] *)
Definition problem_id_of (row : gmap string value) : result (option string) :=
  v ← getitem row "ID";
  if notna v then v' ← getitem row "ID"; Ok (Some (str v')) else Ok None.

(** The body of the PE loop up to [cursor.execute]: [Ok None] is the
    [continue] for a row without an id, [Ok (Some params)] the parameter
    tuple of the statement. *)
Definition pe_params (expert_map : gmap string Z) (row : gmap string value)
  : result (option (list sqlval)) :=
  problem_id ← problem_id_of row;
  match problem_id with
  | None | Some "" => Ok None
  | Some problem_id =>
      sme_id ← resolve_expert_name (get row "SME") expert_map;
      reviewer_id ← resolve_expert_name (get row "Reviewer 1") expert_map;
      reviewer2_id ← resolve_expert_name (get row "Reviewer 2") expert_map;
      engineer_id ← resolve_expert_name (get row "Engineer / Submitter") expert_map;
      final_reviewer_id ← resolve_expert_name (get row "Final Reviewer") expert_map;
      spec_number ← int_or_null row "Spec #";
      status ← str_or_null row "Status";
      week ← int_or_null row "Week";
      separate_environment_init ← bool_or_false row "Separate Environment Init";
      problem_doc ← str_or_null row "Problem Doc";
      ground_truth ← str_or_null row "Problem Ground Truth";
      spec_folder ← str_or_null row "Spec Folder";
      spec_doc ← str_or_null row "Spec Doc";
      spec_data_folder ← str_or_null row "Spec Data Folder";
      docker_container ← str_or_null row "Docker Container";
      pr_link ← str_or_null row "PR Link";
      blocker_reason ← str_or_null row "Blocker Reason";
      sonnet_pass_rate ← str_or_null row "Sonnet 4.5  Pass @ 10";
      opus_pass_rate ← str_or_null row "Opus 4.1 Pass @ 10";
      explainer_video ← str_or_null row "Explainer Video";
      Ok (Some [
        SText problem_id;
        spec_number;
        status;
        id_param sme_id; id_param reviewer_id; id_param final_reviewer_id;
        id_param engineer_id;
        week;
        separate_environment_init;
        problem_doc;
        ground_truth;
        spec_folder;
        spec_doc;
        spec_data_folder;
        docker_container;
        pr_link;
        blocker_reason;
        sonnet_pass_rate;
        opus_pass_rate;
        explainer_video ])
  end.

(** The same for the IB sheet: the spec number is in column [Spec], the
    ground truth in [Ground Truth], and there is no explainer video. *)
Definition ib_params (expert_map : gmap string Z) (row : gmap string value)
  : result (option (list sqlval)) :=
  problem_id ← problem_id_of row;
  match problem_id with
  | None | Some "" => Ok None
  | Some problem_id =>
      sme_id ← resolve_expert_name (get row "SME") expert_map;
      reviewer_id ← resolve_expert_name (get row "Reviewer 1") expert_map;
      reviewer2_id ← resolve_expert_name (get row "Reviewer 2") expert_map;
      engineer_id ← resolve_expert_name (get row "Engineer / Submitter") expert_map;
      final_reviewer_id ← resolve_expert_name (get row "Final Reviewer") expert_map;
      spec_number ← int_or_null row "Spec";
      status ← str_or_null row "Status";
      week ← int_or_null row "Week";
      separate_environment_init ← bool_or_false row "Separate Environment Init";
      problem_doc ← str_or_null row "Problem Doc";
      ground_truth ← str_or_null row "Ground Truth";
      spec_folder ← str_or_null row "Spec Folder";
      spec_doc ← str_or_null row "Spec Doc";
      spec_data_folder ← str_or_null row "Spec Data Folder";
      docker_container ← str_or_null row "Docker Container";
      pr_link ← str_or_null row "PR Link";
      blocker_reason ← str_or_null row "Blocker Reason";
      sonnet_pass_rate ← str_or_null row "Sonnet 4.5  Pass @ 10";
      opus_pass_rate ← str_or_null row "Opus 4.1 Pass @ 10";
      Ok (Some [
        SText problem_id;
        spec_number;
        status;
        id_param sme_id; id_param reviewer_id; id_param final_reviewer_id;
        id_param engineer_id;
        week;
        separate_environment_init;
        problem_doc;
        ground_truth;
        spec_folder;
        spec_doc;
        spec_data_folder;
        docker_container;
        pr_link;
        blocker_reason;
        sonnet_pass_rate;
        opus_pass_rate ])
  end.

(** The body of the [try] for one row, from the connection [c]: [Ok false]
    after the [continue] of a row without an id, [Ok true] once the
    statement has run, or the exception raised on the way; with the
    connection as the statement leaves it. *)
Definition try_body (now : Z) (sql : statement)
    (params_of : gmap string value -> result (option (list sqlval)))
    (c : connection) (row : gmap string value) : connection * result bool :=
  match params_of row with
  | Ok None => (c, Ok false)
  | Ok (Some params) =>
      match execute now c sql params with
      | (c', Ok _) => (c', Ok true)
      | (c', Raise e) => (c', Raise e)
      end
  | Raise e => (c, Raise e)
  end.

(** One round of [for idx, row in df.iterrows()]: the [try], its two
    counters, and the [except Exception] handler. *)
Definition import_row (now : Z) (sql : statement)
    (params_of : gmap string value -> result (option (list sqlval)))
    (idx : nat) (row : gmap string value) (st : progress) : progress :=
  match try_body now sql params_of (conn st) row with
  | (c, Ok true) =>
      {| conn := c; imported := imported st + 1;
         skipped := skipped st; errors := errors st |}
  | (c, Ok false) =>
      {| conn := c; imported := imported st;
         skipped := skipped st + 1; errors := errors st |}
  | (c, Raise e) =>
      {| conn := c; imported := imported st;
         skipped := skipped st + 1; errors := errors st ++ [(idx, e)] |}
  end.

Fixpoint import_rows (now : Z) (sql : statement)
    (params_of : gmap string value -> result (option (list sqlval)))
    (idx : nat) (df : list (gmap string value)) (st : progress) : progress :=
  match df with
  | [] => st
  | row :: rest =>
      import_rows now sql params_of (idx + 1) rest
        (import_row now sql params_of idx row st)
  end.

(** [imported = 0], [skipped = 0], [errors = []] *)
Definition start (c : connection) : progress :=
  {| conn := c; imported := 0; skipped := 0; errors := [] |}.

(** [conn.commit()] after the loop *)
Definition finish (st : progress) : progress :=
  {| conn := commit (conn st); imported := imported st;
     skipped := skipped st; errors := errors st |}.

Definition import_problems (now : Z) (sql : statement)
    (params_of : gmap string value -> result (option (list sqlval)))
    (c : connection) (df : list (gmap string value)) : progress :=
  finish (import_rows now sql params_of 0 df (start c)).

(** [import_pe_problems(conn, expert_map)], given the rows [pd.read_excel]
    returns for the PE sheet and the time [NOW()] yields in the transaction. *)
Definition import_pe_problems (now : Z) (c : connection) (expert_map : gmap string Z)
    (df : list (gmap string value)) : progress :=
  import_problems now pe_sql (pe_params expert_map) c df.

(** [import_ib_problems(conn, expert_map)], likewise for the IB sheet. *)
Definition import_ib_problems (now : Z) (c : connection) (expert_map : gmap string Z)
    (df : list (gmap string value)) : progress :=
  import_problems now ib_sql (ib_params expert_map) c df.

End Importers.

(** ** The orchestrator *)

(** What [main] prints once both imports are done: the number of keys of
    the lookup table, the two counts (the total is their sum), and the rows
    of the verification query, a count for each value of [source]. *)
Record summary : Type := {
  mappings : nat;
  pe_count : nat;
  ib_count : nat;
  by_source : gmap sqlval nat
}.

Definition source_of (record : gmap string sqlval) : sqlval :=
  default SNull (record !! "source").

(** The verification query of [main], grouping the records by [source]
    and counting each group. *)
Definition count_by_source (tbl : gmap (list sqlval) (gmap string sqlval))
  : gmap sqlval nat :=
  map_fold (fun _ record counts =>
              <[source_of record := S (default 0%nat (counts !! source_of record))]> counts)
           ∅ tbl.

Section Main.
Context {R : FloatRepr} {D : Schema}.

(** [main()], given the rows of [experts], the table [problems] as
    committed when the connection opens, what [pd.read_excel] returns or
    raises for each sheet, and the times of the two transactions. The
    result is the table as committed when [conn.close()] has run in the
    [finally] block, and what was printed or the exception that leaves
    [main]. A sheet is read when its importer starts, so the IB sheet is
    read after the PE import has committed. [psycopg2.connect] is taken to
    succeed. *)
Definition main (experts : list (Z * string))
    (tbl : gmap (list sqlval) (gmap string sqlval))
    (pe_sheet ib_sheet : result (list (gmap string value))) (now_pe now_ib : Z)
  : gmap (list sqlval) (gmap string sqlval) * result summary :=
  let c := connect tbl in
  match get_expert_id_map experts with
  | Raise e => (committed c, Raise e)
  | Ok expert_map =>
      match pe_sheet with
      | Raise e => (committed c, Raise e)
      | Ok pe_df =>
          let pe := import_pe_problems now_pe c expert_map pe_df in
          match ib_sheet with
          | Raise e => (committed (conn pe), Raise e)
          | Ok ib_df =>
              let ib := import_ib_problems now_ib (conn pe) expert_map ib_df in
              (committed (conn ib),
               Ok {| mappings := size expert_map;
                     pe_count := imported pe;
                     ib_count := imported ib;
                     by_source := count_by_source (committed (conn ib)) |})
          end
      end
  end.

End Main.

(** ** The statements of the specification, as definitions *)

(** The resolution order as the specification words it: an absent value
    (the missing value) or an empty one (a value Python counts as false:
    the empty string, zero) gives nothing; otherwise the value is
    lower-cased and trimmed, and the full key, then the first token, then
    the alias are tried. Nothing in it fails. *)
Definition resolve_as_specified {R : FloatRepr} (name : value) (table : gmap string Z)
  : option Z :=
  if isna name || negb (truth name) then None
  else
    let s := strip (lower (str name)) in
    match table !! s with
    | Some id => Some id
    | None =>
        match head (split s) ≫= (table !!.) with
        | Some id => Some id
        | None => aliases !! s ≫= (table !!.)
        end
    end.

(** The id of the last expert of the roster whose lower-cased full name is
    [key]. *)
Fixpoint last_full_name (experts : list (Z * string)) (key : string) : option Z :=
  match experts with
  | [] => None
  | (id, name) :: rest =>
      match last_full_name rest key with
      | Some id' => Some id'
      | None => if bool_decide (lower name = key) then Some id else None
      end
  end.

(** The id of the earliest expert of the roster whose lower-cased first
    token is [key]. *)
Fixpoint earliest_first_token (experts : list (Z * string)) (key : string) : option Z :=
  match experts with
  | [] => None
  | (id, name) :: rest =>
      if bool_decide (head (split (lower name)) = Some key) then Some id
      else earliest_first_token rest key
  end.

(** What the table holds under [key]: a full name wins over a first token. *)
Definition table_entry (experts : list (Z * string)) (key : string) : option Z :=
  match last_full_name experts key with
  | Some id => Some id
  | None => earliest_first_token experts key
  end.

(** Every name of the roster has a token. *)
Definition named (experts : list (Z * string)) : Prop :=
  Forall (fun expert => split (lower expert.2) ≠ []) experts.

(** ** Auxiliary notions *)

(** The first character is a whitespace character. *)
Definition starts_with_space (s : string) : bool :=
  match s with
  | EmptyString => false
  | String c _ => isspace c
  end.

(** Every stored row carries its key in its conflict-target columns. *)
Definition keyed (sql : statement) (tbl : gmap (list sqlval) (gmap string sqlval)) : Prop :=
  map_Forall (fun key record => conflict_key sql record = key) tbl.

(** The table a run leaves pending, statement by statement; [None] once
    the server has refused one. *)
Fixpoint run_table {D : Schema} (sql : statement)
    (params_of : gmap string value -> result (option (list sqlval)))
    (now : Z) (df : list (gmap string value))
    (tbl : gmap (list sqlval) (gmap string sqlval))
  : option (gmap (list sqlval) (gmap string sqlval)) :=
  match df with
  | [] => Some tbl
  | row :: rest =>
      match params_of row with
      | Ok (Some params) =>
          match bind_values now (values sql) params with
          | Some vals =>
              match violation sql params with
              | Some _ => None
              | None => run_table sql params_of now rest (upsert now sql vals tbl)
              end
          | None => run_table sql params_of now rest tbl
          end
      | _ => run_table sql params_of now rest tbl
      end
  end.

(** What one row does to the record stored under [key]. *)
Definition entry_step {D : Schema} (sql : statement)
    (params_of : gmap string value -> result (option (list sqlval)))
    (now : Z) (key : list sqlval)
    (o : option (gmap string sqlval)) (row : gmap string value)
  : option (gmap string sqlval) :=
  match params_of row with
  | Ok (Some params) =>
      match bind_values now (values sql) params with
      | Some vals =>
          match violation sql params with
          | Some _ => o
          | None =>
              let excluded := proposed_row now sql vals in
              if decide (key = conflict_key sql excluded)
              then Some match o with
                        | None => excluded
                        | Some old => set_values now sql excluded ∪ old
                        end
              else o
          end
      | None => o
      end
  | _ => o
  end.

(** What the rows of a sheet do to it, in order. *)
Definition run_entry {D : Schema} (sql : statement)
    (params_of : gmap string value -> result (option (list sqlval)))
    (now : Z) (key : list sqlval) (df : list (gmap string value))
    (o : option (gmap string sqlval)) : option (gmap string sqlval) :=
  foldl (entry_step sql params_of now key) o df.

(** The statement writes, on insert and on update alike, the same values
    into every column of its SET list other than [updated_at], and its
    conflict key does not depend on the time. *)
Definition restamps {D : Schema} (s : statement) : Prop :=
  forall n n' params vals vals',
    bind_values n (values s) params = Some vals ->
    bind_values n' (values s) params = Some vals' ->
    conflict_key s (proposed_row n s vals) = conflict_key s (proposed_row n' s vals')
    /\ Forall (fun ce : string * sql_expr =>
         ce.1 ≠ "updated_at" ->
         proposed_row n s vals !! ce.1 = Some (eval_set n' (proposed_row n' s vals') ce.2)
         /\ eval_set n (proposed_row n s vals) ce.2
            = eval_set n' (proposed_row n' s vals') ce.2)
       (do_update_set s).

(** The record carries the stamp of an update made at time [now]. *)
Definition stamped (now : Z) (record : gmap string sqlval) : Prop :=
  record !! "updated_at" = Some (STimestamp now)
  /\ record !! "source" = Some (SText "legacy_sheets").

(** The database refuses none of the statements of the sheet. *)
Definition accepted {D : Schema} (sql : statement)
    (params_of : gmap string value -> result (option (list sqlval)))
    (df : list (gmap string value)) : Prop :=
  Forall (fun row => forall params,
            params_of row = Ok (Some params) -> violation sql params = None) df.

(** The VALUES list with the parameters bound, when the counts agree. *)
Fixpoint fill (now : Z) (vals : list sql_expr) (params : list sqlval) : list sqlval :=
  match vals with
  | [] => []
  | Placeholder :: vals' =>
      match params with
      | [] => []
      | p :: params' => p :: fill now vals' params'
      end
  | Literal v :: vals' => v :: fill now vals' params
  | NOW :: vals' => STimestamp now :: fill now vals' params
  | EXCLUDED _ :: _ => []
  end.

(** The number of [%s] in a VALUES list. *)
Fixpoint placeholders (vals : list sql_expr) : nat :=
  match vals with
  | [] => 0
  | Placeholder :: vals' => S (placeholders vals')
  | _ :: vals' => placeholders vals'
  end.

(** Some character of the string is a whitespace character. *)
Fixpoint has_space (s : string) : bool :=
  match s with
  | EmptyString => false
  | String c s' => isspace c || has_space s'
  end.

(** Some name of the roster has no token. *)
Definition unnamed (experts : list (Z * string)) : Prop :=
  Exists (fun expert => split (lower expert.2) = []) experts.

(** The row sends a statement whose conflict key is [key]. *)
Definition writes {D : Schema} (sql : statement)
    (params_of : gmap string value -> result (option (list sqlval)))
    (now : Z) (row : gmap string value) (key : list sqlval) : Prop :=
  exists params vals,
    params_of row = Ok (Some params)
    /\ bind_values now (values sql) params = Some vals
    /\ key = conflict_key sql (proposed_row now sql vals).

(** The two sheets, to state what both importers do once. *)
Inductive sheet : Type := PE | IB.

(** The value of [environment] in the sheet's statement. *)
Definition environment (s : sheet) : string :=
  match s with PE => "PE" | IB => "IB" end.

Definition sheet_sql (s : sheet) : statement :=
  match s with PE => pe_sql | IB => ib_sql end.

Definition sheet_params {R : FloatRepr} (s : sheet) (expert_map : gmap string Z)
  : gmap string value -> result (option (list sqlval)) :=
  match s with PE => pe_params expert_map | IB => ib_params expert_map end.

Definition import_sheet {R : FloatRepr} {D : Schema} (s : sheet) (now : Z)
    (c : connection) (expert_map : gmap string Z) (df : list (gmap string value))
  : progress :=
  match s with
  | PE => import_pe_problems now c expert_map df
  | IB => import_ib_problems now c expert_map df
  end.

(** The record says it comes from the legacy sheets. *)
Definition legacy (record : gmap string sqlval) : Prop :=
  record !! "source" = Some (SText "legacy_sheets").

(** Every record of the table does. *)
Definition legacy_only (tbl : gmap (list sqlval) (gmap string sqlval)) : Prop :=
  map_Forall (fun _ record => legacy record) tbl.

(** The three lookups of the resolver on a key, in their order: the key
    itself, its first token, its alias target. *)
Definition lookup_in_order (key : string) (table : gmap string Z) : option Z :=
  match table !! key with
  | Some id => Some id
  | None =>
      match head (split key) ≫= (table !!.) with
      | Some id => Some id
      | None => aliases !! key ≫= (table !!.)
      end
  end.

(** The rows of a roster of text names. *)
Definition text_rows (experts : list (Z * string)) : list (Z * option string) :=
  (fun expert => (expert.1, Some expert.2)) <$> experts.

(** ** Concrete inputs *)

(** A stand-in for [repr]; the sheets below hold no float but [nan]. *)
Definition any_repr : FloatRepr := fun _ => "nan".

Definition barnett_first : list (Z * string) := [(1, "Jack Barnett"); (2, "Jack Smith")].
Definition smith_first : list (Z * string) := [(2, "Jack Smith"); (1, "Jack Barnett")].
Definition barnett_first_map : gmap string Z :=
  list_to_map [("jack barnett", 1); ("jack", 1); ("jack smith", 2)].

Definition scenario_roster : list (Z * string) := [(1, "Robert Alward"); (2, "Jerry Song")].
Definition scenario_map : gmap string Z :=
  list_to_map [("robert alward", 1); ("robert", 1); ("jerry song", 2); ("jerry", 2)].
Definition scenario_row : gmap string value :=
  list_to_map [("ID", VStr "P-100"); ("SME", VStr "rob"); ("Spec #", VInt 5);
               ("Status", VStr "Done")].
Definition scenario_params : list sqlval := [
  SText "P-100"; SInt 5; SText "Done";
  SInt 1; SNull; SNull; SNull;
  SNull; SBool false;
  SNull; SNull; SNull; SNull; SNull;
  SNull; SNull; SNull;
  SNull; SNull; SNull ].

(** A database without column defaults that accepts every statement. *)
Definition plain_schema : Schema :=
  {| column_default := fun _ => ∅; violation := fun _ _ => None |}.

Definition good_row : gmap string value :=
  list_to_map [("ID", VStr "P-2"); ("Spec #", VInt 7); ("SME", VStr "Jerome")].
Definition no_id_row : gmap string value :=
  list_to_map [("ID", VFloat nan); ("Spec #", VInt 3)].
Definition blank_sme_row : gmap string value :=
  list_to_map [("ID", VStr "P-100"); ("SME", VStr "   ")].
Definition blank_reviewer2_row : gmap string value :=
  list_to_map [("ID", VStr "P-100"); ("Reviewer 2", VStr "   ")].
Definition other_reviewer2_row : gmap string value :=
  list_to_map [("ID", VStr "P-100"); ("Reviewer 2", VStr "Jerry")].

(** A database whose [spec_number] is a four-byte integer: it refuses a
    statement whose second parameter is larger. *)
Definition int4_schema : Schema :=
  {| column_default := fun _ => ∅;
     violation := fun _ params =>
       match params !! 1%nat with
       | Some (SInt n) =>
           if (2147483647 <? n)%Z then Some "integer out of range" else None
       | _ => None
       end |}.

Definition huge_spec_row : gmap string value :=
  list_to_map [("ID", VStr "P-3"); ("Spec #", VInt 99999999999)].
Definition later_row : gmap string value :=
  list_to_map [("ID", VStr "P-2"); ("Spec #", VInt 9); ("Status", VStr "Done")].
Definition unknown_reviewer2_row : gmap string value :=
  list_to_map [("ID", VStr "P-100"); ("Reviewer 2", VStr "Nobody")].
Definition no_id_column_row : gmap string value :=
  list_to_map [("Spec #", VInt 1); ("Status", VStr "Done")].
Definition text_flag_row : gmap string value :=
  list_to_map [("ID", VStr "P-4"); ("Separate Environment Init", VStr "No")].
Definition old_record : gmap string sqlval :=
  list_to_map [("problem_id", SText "P-2"); ("environment", SText "PE");
               ("status", SText "Draft"); ("created_at", STimestamp 1)].
Definition old_table : gmap (list sqlval) (gmap string sqlval) :=
  {[ [SText "P-2"; SText "PE"] := old_record ]}.
Definition ib_record : gmap string sqlval :=
  list_to_map [("problem_id", SText "P-2"); ("environment", SText "IB");
               ("status", SText "Draft"); ("created_at", STimestamp 1)].
Definition ib_table : gmap (list sqlval) (gmap string sqlval) :=
  {[ [SText "P-2"; SText "IB"] := ib_record ]}.
Definition blank_roster : list (Z * string) := [(1, "Robert Alward"); (2, "  ")].
Definition huge_spec_params : list sqlval := [
  SText "P-3"; SInt 99999999999; SNull;
  SNull; SNull; SNull; SNull;
  SNull; SBool false;
  SNull; SNull; SNull; SNull; SNull;
  SNull; SNull; SNull;
  SNull; SNull; SNull ].
Definition later_params : list sqlval := [
  SText "P-2"; SInt 9; SText "Done";
  SNull; SNull; SNull; SNull;
  SNull; SBool false;
  SNull; SNull; SNull; SNull; SNull;
  SNull; SNull; SNull;
  SNull; SNull; SNull ].
Definition text_flag_params : list sqlval := [
  SText "P-4"; SNull; SNull;
  SNull; SNull; SNull; SNull;
  SNull; SBool true;
  SNull; SNull; SNull; SNull; SNull;
  SNull; SNull; SNull;
  SNull; SNull; SNull ].

(** ** Strings *)

Lemma isspace_lower_char c : isspace (lower_char c) = isspace c.
Proof. by destruct c as [[] [] [] [] [] [] [] []]. Qed.

Lemma lower_lstrip s : lower (lstrip s) = lstrip (lower s).
Proof.
  induction s as [|c s IH]; simpl; [done|].
  rewrite isspace_lower_char. by destruct (isspace c).
Qed.

Lemma lower_rstrip s : lower (rstrip s) = rstrip (lower s).
Proof.
  induction s as [|c s IH]; simpl; [done|].
  rewrite <- IH, isspace_lower_char.
  destruct (rstrip s); simpl; [by destruct (isspace c)|done].
Qed.

Lemma lower_strip s : lower (strip s) = strip (lower s).
Proof. unfold strip. by rewrite lower_rstrip, lower_lstrip. Qed.

(** After [lstrip] the first character, if any, is not a space, and
    [rstrip] keeps such a first character. *)
Lemma lstrip_start s : starts_with_space (lstrip s) = false.
Proof.
  induction s as [|c s IH]; simpl; [done|].
  destruct (isspace c) eqn:Hc; [done|]. simpl. by rewrite Hc.
Qed.

Lemma rstrip_start s : starts_with_space s = false -> starts_with_space (rstrip s) = false.
Proof.
  destruct s as [|c s]; simpl; [done|]. intros Hc.
  destruct (rstrip s); simpl; by rewrite ?Hc.
Qed.

Lemma strip_start s : starts_with_space (strip s) = false.
Proof. apply rstrip_start, lstrip_start. Qed.

Lemma split_from_cur cur s : cur ≠ "" -> split_from cur s ≠ [].
Proof.
  revert cur. induction s as [|c s IH]; intros cur Hcur; simpl.
  - by rewrite bool_decide_eq_false_2.
  - destruct (isspace c).
    + by rewrite bool_decide_eq_false_2.
    + apply IH. by destruct cur.
Qed.

Lemma split_nil s : starts_with_space s = false -> split s = [] -> s = "".
Proof.
  destruct s as [|c s]; [done|]. unfold split. simpl. intros ->.
  intros H. by apply split_from_cur in H.
Qed.

(** A trimmed string without a token is empty. *)
Lemma split_strip_nil s : split (strip s) = [] -> strip s = "".
Proof. apply split_nil, strip_start. Qed.

(** ** The resolver *)

Section ResolverFacts.
Context {R : FloatRepr}.

Lemma name_str_trim_lower v : name_str v = strip (lower (str v)).
Proof. apply lower_strip. Qed.

Lemma name_str_token v : name_str v ≠ "" -> split (name_str v) ≠ [].
Proof.
  rewrite name_str_trim_lower. intros Hne Hnil. by apply split_strip_nil in Hnil.
Qed.

(** Outside the one case in which [split()[0]] has nothing to index, the
    resolver returns what the specified order returns. *)
Lemma resolve_expert_name_order v m :
  isna v || negb (truth v) = true ∨ is_Some (m !! name_str v) ∨ name_str v ≠ "" ->
  resolve_expert_name v m = Ok (resolve_as_specified v m).
Proof.
  unfold resolve_expert_name, resolve_as_specified.
  destruct (isna v || negb (truth v)); [done|].
  rewrite <- name_str_trim_lower. intros [?|[[id Hid]|Hne]]; [done| |].
  - by rewrite Hid.
  - destruct (m !! name_str v) as [id|]; [done|].
    apply name_str_token in Hne.
    destruct (split (name_str v)) as [|first_name tokens];
      [exfalso; apply Hne; reflexivity|].
    cbn [item0 mbind result_bind head option_bind].
    destruct (m !! first_name); [reflexivity|].
    destruct (aliases !! name_str v) as [full_name|]; [|reflexivity].
    cbn [mbind option_bind].
    destruct (m !! full_name); reflexivity.
Qed.

(** The remaining case: a value that is neither missing nor false, whose
    trimmed string is empty and is no key of the table. *)
Lemma resolve_expert_name_blank v m :
  isna v || negb (truth v) = false -> name_str v = "" -> m !! "" = None ->
  resolve_expert_name v m = Raise IndexError.
Proof.
  unfold resolve_expert_name. intros -> Hs Hm. rewrite Hs, Hm. reflexivity.
Qed.

(** The resolver raises in that case only. *)
Lemma resolve_expert_name_raises v m e :
  resolve_expert_name v m = Raise e <->
  e = IndexError /\ isna v || negb (truth v) = false /\ name_str v = "" /\ m !! "" = None.
Proof.
  split.
  - intros Hraise.
    destruct (isna v || negb (truth v)) eqn:Hmissing;
      [by rewrite resolve_expert_name_order in Hraise by (by left)|].
    destruct (decide (name_str v = "")) as [Hempty|Hne];
      [|by rewrite resolve_expert_name_order in Hraise by (by right; right)].
    destruct (m !! "") as [id|] eqn:Hkey.
    + rewrite resolve_expert_name_order in Hraise; [done|].
      right; left. rewrite Hempty, Hkey. eauto.
    + rewrite resolve_expert_name_blank in Hraise by done. by injection Hraise as <-.
  - intros (-> & Hmissing & Hempty & Hkey). by apply resolve_expert_name_blank.
Qed.

Lemma resolve_expert_name_missing v m :
  isna v || negb (truth v) = true -> resolve_expert_name v m = Ok None.
Proof. unfold resolve_expert_name. by intros ->. Qed.

End ResolverFacts.

(** ** The lookup table *)

Lemma register_expert_lookup m id name m' key :
  register_expert m (id, name) = Ok m' ->
  m' !! key =
    if bool_decide (lower name = key) then Some id
    else match m !! key with
         | Some id' => Some id'
         | None => if bool_decide (head (split (lower name)) = Some key) then Some id else None
         end.
Proof.
  unfold register_expert.
  destruct (split (lower name)) as [|first_name tokens] eqn:Hsplit; simpl; [done|].
  case_bool_decide as Hfree; intros [= <-].
  - rewrite lookup_insert. case_decide as Hfull; [by rewrite bool_decide_eq_true_2|].
    rewrite bool_decide_eq_false_2 by done.
    destruct (m !! key) eqn:Hkey; [done|].
    case_bool_decide as Hfirst; [|done].
    injection Hfirst as ->. destruct Hfree as [x Hx].
    rewrite lookup_insert_ne in Hx by done. congruence.
  - rewrite (lookup_insert _ first_name).
    case_decide as Hfirst.
    + subst key. case_bool_decide as Hfull.
      * subst first_name. exfalso. apply Hfree. rewrite lookup_insert_eq. eauto.
      * destruct (m !! first_name) eqn:Hkey.
        -- exfalso. apply Hfree. rewrite lookup_insert_ne by done. eauto.
        -- by rewrite bool_decide_eq_true_2.
    + rewrite lookup_insert. case_decide as Hfull; [by rewrite bool_decide_eq_true_2|].
      rewrite bool_decide_eq_false_2 by done.
      destruct (m !! key); [done|].
      rewrite bool_decide_eq_false_2; [done|]. congruence.
Qed.

Lemma register_expert_named m id name :
  split (lower name) ≠ [] -> exists m', register_expert m (id, name) = Ok m'.
Proof.
  unfold register_expert. destruct (split (lower name)); [congruence|]. simpl.
  case_bool_decide; eauto.
Qed.

Lemma register_experts_lookup experts : forall m m' key,
  register_experts m experts = Ok m' ->
  m' !! key =
    match last_full_name experts key with
    | Some id => Some id
    | None =>
        match m !! key with
        | Some id => Some id
        | None => earliest_first_token experts key
        end
    end.
Proof.
  induction experts as [|[id name] rest IH]; intros m m' key;
    cbn [register_experts last_full_name earliest_first_token].
  - intros [= <-]. by destruct (m !! key).
  - destruct (register_expert m (id, name)) as [m1|] eqn:Hreg;
      cbn [mbind result_bind]; [|done].
    intros Hrest. rewrite (IH _ _ _ Hrest).
    rewrite (register_expert_lookup _ _ _ _ key Hreg).
    destruct (last_full_name rest key); [done|].
    case_bool_decide; [done|].
    destruct (m !! key); [done|]. by case_bool_decide.
Qed.

Lemma register_experts_named experts : forall m,
  named experts -> exists m', register_experts m experts = Ok m'.
Proof.
  induction experts as [|[id name] rest IH]; intros m Hnamed;
    cbn [register_experts]; [eauto|].
  apply Forall_cons in Hnamed as [Hname Hrest].
  destruct (register_expert_named m id name Hname) as [m1 ->].
  cbn [mbind result_bind]. by apply IH.
Qed.

Lemma get_expert_id_map_lookup experts m key :
  get_expert_id_map experts = Ok m -> m !! key = table_entry experts key.
Proof.
  intros Hm. unfold table_entry.
  rewrite (register_experts_lookup _ _ _ key Hm), lookup_empty. done.
Qed.

Lemma earliest_first_token_app (pre post : list (Z * string)) key :
  earliest_first_token (pre ++ post)%list key =
  match earliest_first_token pre key with
  | Some id => Some id
  | None => earliest_first_token post key
  end.
Proof.
  induction pre as [|[id name] pre IH]; simpl; [done|]. by case_bool_decide.
Qed.

Lemma earliest_first_token_member experts id name key :
  (id, name) ∈ experts -> head (split (lower name)) = Some key ->
  is_Some (earliest_first_token experts key).
Proof.
  induction experts as [|[id' name'] rest IH]; [by intros ?%elem_of_nil|].
  intros [[= <- <-]|Hin]%elem_of_cons Hkey; simpl.
  - rewrite bool_decide_eq_true_2 by done. eauto.
  - case_bool_decide; eauto.
Qed.

Section ResolverOnTable.
Context {R : FloatRepr}.

Lemma resolve_expert_name_direct v m id :
  isna v || negb (truth v) = false -> m !! name_str v = Some id ->
  resolve_expert_name v m = Ok (Some id).
Proof. unfold resolve_expert_name. intros -> Hid. rewrite Hid. reflexivity. Qed.

End ResolverOnTable.

(** C5, as amended. For every roster whose names all have a token,
    [get_expert_id_map] returns a table in which a key maps to the id of the
    last expert whose lower-cased full name is the key, if there is one,
    and otherwise to the id of the earliest expert whose lower-cased first
    token is the key; a key that is neither is absent. So a first-name
    entry never replaces an entry already there, while a full-name entry
    always does. *)
Theorem get_expert_id_map_entries experts :
  named experts ->
  exists m, get_expert_id_map experts = Ok m /\
            forall key, m !! key = table_entry experts key.
Proof.
  intros Hnamed.
  destruct (register_experts_named experts ∅ Hnamed) as [m Hm].
  exists m. split; [exact Hm|].
  intros key. by apply get_expert_id_map_lookup.
Qed.

Lemma get_expert_id_map_entries_witness :
  exists m, get_expert_id_map barnett_first = Ok m /\
            forall key, m !! key = table_entry barnett_first key.
Proof.
  apply (get_expert_id_map_entries barnett_first).
  repeat constructor; vm_compute; discriminate.
Defined.

(** C5 as stated fails: a later expert named just "Jack" takes the key
    "jack" from the earliest expert bearing that first token, and of two
    experts with the same lower-cased full name the later one holds the key. *)
Lemma later_full_name_takes_key :
  (fun m : gmap string Z => m !! "jack") <$>
      get_expert_id_map [(1, "Jack Barnett"); (2, "Jack")] = Ok (Some 2)
  /\ earliest_first_token [(1, "Jack Barnett"); (2, "Jack")] "jack" = Some 1
  /\ (fun m : gmap string Z => m !! lower "Ann Lee") <$>
      get_expert_id_map [(1, "Ann Lee"); (2, "ann lee")] = Ok (Some 2).
Proof. repeat split; vm_compute; reflexivity. Qed.

(** C6, as amended. For every roster containing both "Jack Barnett" and
    "Jack Smith", resolving "jack" returns the id the table holds under the
    direct key "jack", which always exists: the last expert named just
    "jack" if there is one, otherwise the earliest expert whose first token
    is "jack". That is Jack Barnett's id when he comes before every other
    expert with that first token and nobody is named just "jack". The alias
    entry for "jack" is not consulted. *)
Theorem resolve_jack_is_direct_key {R : FloatRepr} experts m barnett smith :
  get_expert_id_map experts = Ok m ->
  (barnett, "Jack Barnett") ∈ experts ->
  (smith, "Jack Smith") ∈ experts ->
  resolve_expert_name (VStr "jack") m = Ok (table_entry experts "jack")
  /\ is_Some (table_entry experts "jack")
  /\ (forall pre post : list (Z * string),
        experts = (pre ++ (barnett, "Jack Barnett") :: post)%list ->
        earliest_first_token pre "jack" = None ->
        last_full_name experts "jack" = None ->
        table_entry experts "jack" = Some barnett).
Proof.
  intros Hm Hbarnett _.
  assert (is_Some (table_entry experts "jack")) as [id Hid].
  { unfold table_entry. destruct (last_full_name experts "jack"); [eauto|].
    by apply (earliest_first_token_member experts barnett "Jack Barnett"). }
  split; [|split; [by rewrite Hid|]].
  - rewrite Hid. apply resolve_expert_name_direct; [reflexivity|].
    rewrite <- Hid. by apply get_expert_id_map_lookup.
  - intros pre post -> Hpre Hlast. unfold table_entry.
    rewrite Hlast, earliest_first_token_app, Hpre. reflexivity.
Qed.

Lemma resolve_jack_is_direct_key_witness :
  @resolve_expert_name any_repr (VStr "jack") barnett_first_map = Ok (Some 1).
Proof.
  destruct (@resolve_jack_is_direct_key any_repr barnett_first barnett_first_map 1 2)
    as (Hjack & _ & _).
  - vm_compute. reflexivity.
  - repeat constructor.
  - repeat constructor.
  - rewrite Hjack. vm_compute. reflexivity.
Defined.

(** C6 as stated fails: with Jack Smith registered first, "jack" is his
    key and resolves to his id, not to Jack Barnett's. *)
Lemma jack_resolves_to_smith :
  (get_expert_id_map smith_first ≫= @resolve_expert_name any_repr (VStr "jack")) = Ok (Some 2)
  /\ (1, "Jack Barnett") ∈ smith_first.
Proof. split; [vm_compute; reflexivity|repeat constructor]. Qed.

(** ** The loop of the importers *)

Section Loop.
Context {R : FloatRepr} {D : Schema}.
Variable now : Z.
Variable sql : statement.
Variable params_of : gmap string value -> result (option (list sqlval)).

Lemma import_rows_app pre post : forall idx st,
  import_rows now sql params_of idx (pre ++ post) st =
  import_rows now sql params_of (idx + length pre) post
    (import_rows now sql params_of idx pre st).
Proof.
  induction pre as [|row pre IH]; intros idx st; simpl.
  - by rewrite Nat.add_0_r.
  - rewrite IH. f_equal. lia.
Qed.

Lemma import_row_counts idx row st :
  let st' := import_row now sql params_of idx row st in
  (imported st' + skipped st' = imported st + skipped st + 1)%nat
  /\ (length (errors st') + skipped st <= length (errors st) + skipped st')%nat.
Proof.
  unfold import_row.
  destruct (try_body now sql params_of (conn st) row) as [c [[]|e]]; simpl;
    rewrite ?length_app; simpl; lia.
Qed.

Lemma import_rows_counts df : forall idx st,
  let st' := import_rows now sql params_of idx df st in
  (imported st' + skipped st' = imported st + skipped st + length df)%nat
  /\ (length (errors st') + skipped st <= length (errors st) + skipped st')%nat.
Proof.
  induction df as [|row df IH]; intros idx st; simpl; [lia|].
  specialize (IH (idx + 1)%nat (import_row now sql params_of idx row st)).
  pose proof (import_row_counts idx row st). simpl in *. lia.
Qed.

Lemma import_problems_counts c df :
  let r := import_problems now sql params_of c df in
  (imported r + skipped r = length df)%nat /\ (length (errors r) <= skipped r)%nat.
Proof.
  pose proof (import_rows_counts df 0%nat (start c)) as H. simpl in *. lia.
Qed.


(** A row whose [try] body leaves by [continue]. *)
Lemma import_problems_continue c pre row post :
  let st := import_rows now sql params_of 0 pre (start c) in
  params_of row = Ok None ->
  import_problems now sql params_of c (pre ++ row :: post) =
  finish (import_rows now sql params_of (length pre + 1) post
            {| conn := conn st; imported := imported st;
               skipped := skipped st + 1; errors := errors st |}).
Proof.
  intros st Hrow. unfold import_problems. rewrite import_rows_app. simpl.
  fold st. unfold import_row, try_body. by rewrite Hrow.
Qed.

(** The loop sees a row through its parameters only. *)
Lemma import_problems_same_params c pre row1 row2 post :
  params_of row1 = params_of row2 ->
  import_problems now sql params_of c (pre ++ row1 :: post) =
  import_problems now sql params_of c (pre ++ row2 :: post).
Proof.
  intros Hparams. unfold import_problems. rewrite !import_rows_app. simpl.
  unfold import_row, try_body. by rewrite Hparams.
Qed.

End Loop.

Section RowFacts.
Context {R : FloatRepr}.

Lemma problem_id_of_blank row v :
  row !! "ID" = Some v -> isna v = true \/ str v = "" ->
  problem_id_of row = Ok None \/ problem_id_of row = Ok (Some "").
Proof.
  intros Hid Hblank. unfold problem_id_of, getitem, notna. rewrite Hid. cbn.
  destruct (isna v); cbn; [by left|]. destruct Hblank as [? | ->]; [done|by right].
Qed.

Lemma pe_params_blank m row v :
  row !! "ID" = Some v -> isna v = true \/ str v = "" -> pe_params m row = Ok None.
Proof.
  intros Hid Hblank. unfold pe_params.
  by destruct (problem_id_of_blank row v Hid Hblank) as [-> | ->].
Qed.

Lemma ib_params_blank m row v :
  row !! "ID" = Some v -> isna v = true \/ str v = "" -> ib_params m row = Ok None.
Proof.
  intros Hid Hblank. unfold ib_params.
  by destruct (problem_id_of_blank row v Hid Hblank) as [-> | ->].
Qed.

(** A sheet without the column [ID] is another matter: [row['ID']] raises,
    and the row goes to the handler. *)
Lemma params_without_id_column m row :
  row !! "ID" = None ->
  pe_params m row = Raise (KeyError "ID") /\ ib_params m row = Raise (KeyError "ID").
Proof.
  intros Hid. unfold pe_params, ib_params, problem_id_of, getitem. by rewrite Hid.
Qed.

(** The second reviewer is resolved and then dropped: two rows that differ
    in that cell only have the same parameters, provided the resolver
    returns for both cells. *)
Lemma params_ignore_reviewer2 m row1 row2 a b :
  (forall col, col ≠ "Reviewer 2" -> row1 !! col = row2 !! col) ->
  resolve_expert_name (get row1 "Reviewer 2") m = Ok a ->
  resolve_expert_name (get row2 "Reviewer 2") m = Ok b ->
  pe_params m row1 = pe_params m row2 /\ ib_params m row1 = ib_params m row2.
Proof.
  intros Hagree H1 H2.
  unfold pe_params, ib_params, problem_id_of, int_or_null, str_or_null, bool_or_false,
    get, getitem in *.
  repeat match goal with
         | |- context [row1 !! ?c] => rewrite (Hagree c) by discriminate
         end.
  rewrite H1, H2. split; reflexivity.
Qed.

End RowFacts.

Section Reviewer2.
Context {R : FloatRepr} {D : Schema}.

Lemma import_ignores_reviewer2 now c m pre row1 row2 post a b :
  (forall col, col ≠ "Reviewer 2" -> row1 !! col = row2 !! col) ->
  resolve_expert_name (get row1 "Reviewer 2") m = Ok a ->
  resolve_expert_name (get row2 "Reviewer 2") m = Ok b ->
  import_pe_problems now c m (pre ++ row1 :: post) =
    import_pe_problems now c m (pre ++ row2 :: post)
  /\ import_ib_problems now c m (pre ++ row1 :: post) =
    import_ib_problems now c m (pre ++ row2 :: post).
Proof.
  intros Hagree H1 H2.
  destruct (params_ignore_reviewer2 m row1 row2 a b Hagree H1 H2) as [Hpe Hib].
  split; by apply import_problems_same_params.
Qed.

End Reviewer2.

(** ** The statement on one row *)

Section Statement.
Context {D : Schema}.

Lemma proposed_row_listed now s vals c v :
  (list_to_map (zip (columns s) vals) : gmap string sqlval) !! c = Some v ->
  proposed_row now s vals !! c = Some v.
Proof. apply lookup_union_Some_l. Qed.

Lemma set_values_lookup now s excluded c e :
  (list_to_map (do_update_set s) : gmap string sql_expr) !! c = Some e ->
  set_values now s excluded !! c = Some (eval_set now excluded e).
Proof.
  unfold set_values. induction (do_update_set s) as [|[c' e'] l IH]; simpl; [done|].
  rewrite !lookup_insert. case_decide; [by intros [= ->]|done].
Qed.

Lemma set_values_lookup_None now s excluded c :
  (list_to_map (do_update_set s) : gmap string sql_expr) !! c = None ->
  set_values now s excluded !! c = None.
Proof.
  unfold set_values. induction (do_update_set s) as [|[c' e'] l IH]; simpl; [done|].
  rewrite !lookup_insert. case_decide; [done|done].
Qed.

Lemma updated_row_set now s excluded old c e :
  (list_to_map (do_update_set s) : gmap string sql_expr) !! c = Some e ->
  (set_values now s excluded ∪ old) !! c = Some (eval_set now excluded e).
Proof. intros Hc. apply lookup_union_Some_l. by apply set_values_lookup. Qed.

Lemma updated_row_kept now s excluded old c :
  (list_to_map (do_update_set s) : gmap string sql_expr) !! c = None ->
  (set_values now s excluded ∪ old) !! c = old !! c.
Proof. intros Hc. apply lookup_union_r. by apply set_values_lookup_None. Qed.

Lemma upsert_lookup now s vals tbl :
  let excluded := proposed_row now s vals in
  upsert now s vals tbl !! conflict_key s excluded =
  Some match tbl !! conflict_key s excluded with
       | None => excluded
       | Some old => set_values now s excluded ∪ old
       end.
Proof.
  intros excluded. unfold upsert. fold excluded.
  destruct (tbl !! conflict_key s excluded); by rewrite lookup_insert_eq.
Qed.

Lemma upsert_lookup_ne now s vals tbl key :
  key ≠ conflict_key s (proposed_row now s vals) ->
  upsert now s vals tbl !! key = tbl !! key.
Proof.
  intros Hne. unfold upsert.
  destruct (tbl !! conflict_key s _); by rewrite lookup_insert_ne.
Qed.

End Statement.

Section Scenario.
Context {R : FloatRepr} {D : Schema}.

(** C8. With the roster [(1, "Robert Alward"); (2, "Jerry Song")], the PE
    importer turns the row {ID: "P-100", SME: "rob", Spec #: 5, Status:
    "Done"} into a record with problem_id "P-100", environment "PE",
    sme_id 1, spec_number 5, status "Done" and source "legacy_sheets";
    "rob" is no key of the table and resolves through its alias. This holds
    whether the record is inserted or updated, on any table whose records
    carry their key, provided the database accepts the statement. *)
Theorem pe_import_end_to_end now tbl :
  violation pe_sql scenario_params = None ->
  keyed pe_sql tbl ->
  get_expert_id_map scenario_roster = Ok scenario_map /\
  scenario_map !! "rob" = None /\ aliases !! "rob" = Some "robert alward" /\
    let r := import_pe_problems now (connect tbl) scenario_map [scenario_row] in
    imported r = 1%nat /\ skipped r = 0%nat /\ errors r = [] /\
    exists record,
      committed (conn r) !! [SText "P-100"; SText "PE"] = Some record /\
      record !! "problem_id" = Some (SText "P-100") /\
      record !! "environment" = Some (SText "PE") /\
      record !! "sme_id" = Some (SInt 1) /\
      record !! "spec_number" = Some (SInt 5) /\
      record !! "status" = Some (SText "Done") /\
      record !! "source" = Some (SText "legacy_sheets").
Proof.
  intros Haccept Hkeyed. do 3 (split; [vm_compute; reflexivity|]).
  unfold import_pe_problems, import_problems.
  cbn [import_rows]. unfold import_row, try_body.
  replace (pe_params scenario_map scenario_row) with (Ok (Some scenario_params))
    by (vm_compute; reflexivity).
  unfold execute.
  match goal with |- context [bind_values now ?v ?p] =>
    let b := eval cbn in (bind_values now v p) in change (bind_values now v p) with b end.
  cbn [conn start connect failed]. rewrite Haccept.
  cbn [conn finish imported skipped errors commit failed connect pending committed].
  repeat (split; [reflexivity|]).
  match goal with |- context [upsert now pe_sql ?v tbl] => set (vals := v) end.
  assert (conflict_key pe_sql (proposed_row now pe_sql vals)
          = [SText "P-100"; SText "PE"]) as Hkey.
  { unfold conflict_key. cbn [conflict_target pe_sql fmap list_fmap].
    rewrite (proposed_row_listed now pe_sql vals "problem_id" (SText "P-100"))
      by (vm_compute; reflexivity).
    rewrite (proposed_row_listed now pe_sql vals "environment" (SText "PE"))
      by (vm_compute; reflexivity).
    reflexivity. }
  pose proof (upsert_lookup now pe_sql vals tbl) as Hrow. cbv zeta in Hrow.
  rewrite Hkey in Hrow. rewrite Hrow. eexists. split; [reflexivity|].
  destruct (tbl !! [SText "P-100"; SText "PE"]) as [old|] eqn:Hold.
  - apply Hkeyed in Hold. unfold conflict_key in Hold.
    cbn [conflict_target pe_sql fmap list_fmap] in Hold.
    injection Hold as Hid Henv.
    assert (old !! "problem_id" = Some (SText "P-100")) as Hid'
      by (destruct (old !! "problem_id"); [by f_equal|done]).
    assert (old !! "environment" = Some (SText "PE")) as Henv'
      by (destruct (old !! "environment"); [by f_equal|done]).
    split; [by rewrite updated_row_kept by (vm_compute; reflexivity)|].
    split; [by rewrite updated_row_kept by (vm_compute; reflexivity)|].
    split; [rewrite (updated_row_set _ _ _ _ _ (EXCLUDED "sme_id")) by (vm_compute; reflexivity)|].
    { cbn [eval_set]. by rewrite (proposed_row_listed now pe_sql vals "sme_id" (SInt 1))
        by (vm_compute; reflexivity). }
    split; [rewrite (updated_row_set _ _ _ _ _ (EXCLUDED "spec_number")) by (vm_compute; reflexivity)|].
    { cbn [eval_set]. by rewrite (proposed_row_listed now pe_sql vals "spec_number" (SInt 5))
        by (vm_compute; reflexivity). }
    split; [rewrite (updated_row_set _ _ _ _ _ (EXCLUDED "status")) by (vm_compute; reflexivity)|].
    { cbn [eval_set]. by rewrite (proposed_row_listed now pe_sql vals "status" (SText "Done"))
        by (vm_compute; reflexivity). }
    by rewrite (updated_row_set _ _ _ _ _ (Literal (SText "legacy_sheets")))
      by (vm_compute; reflexivity).
  - repeat split; apply proposed_row_listed; vm_compute; reflexivity.
Qed.

End Scenario.

(** ** What a run commits *)

Section Run.
Context {R : FloatRepr} {D : Schema}.
Variable sql : statement.
Variable params_of : gmap string value -> result (option (list sqlval)).

Lemma conn_import_row now idx row st :
  conn (import_row now sql params_of idx row st) =
  (try_body now sql params_of (conn st) row).1.
Proof.
  unfold import_row.
  by destruct (try_body now sql params_of (conn st) row) as [c [[]|e]].
Qed.

Lemma try_body_failed now c row :
  failed c = true -> (try_body now sql params_of c row).1 = c.
Proof.
  intros Hfailed. unfold try_body, execute.
  destruct (params_of row) as [[params|]|e]; [|done|done].
  destruct (bind_values now (values sql) params); [|done].
  by rewrite Hfailed.
Qed.

Lemma import_rows_failed now df : forall idx st,
  failed (conn st) = true ->
  conn (import_rows now sql params_of idx df st) = conn st.
Proof.
  induction df as [|row df IH]; intros idx st Hfailed; simpl; [done|].
  rewrite IH; rewrite conn_import_row, try_body_failed; done.
Qed.

Lemma import_rows_run now df : forall idx st,
  failed (conn st) = false ->
  let c := conn (import_rows now sql params_of idx df st) in
  committed c = committed (conn st) /\
  match run_table sql params_of now df (pending (conn st)) with
  | Some tbl => pending c = tbl /\ failed c = false
  | None => failed c = true
  end.
Proof.
  induction df as [|row df IH]; intros idx st Hfailed; simpl; [done|].
  pose proof (conn_import_row now idx row st) as Hconn.
  unfold try_body, execute in Hconn. rewrite Hfailed in Hconn.
  destruct (params_of row) as [[params|]|e]; simpl in Hconn.
  - destruct (bind_values now (values sql) params) as [vals|]; simpl in Hconn.
    + destruct (violation sql params) as [msg|]; simpl in Hconn.
      * rewrite import_rows_failed by (by rewrite Hconn). by rewrite Hconn.
      * specialize (IH (idx + 1)%nat (import_row now sql params_of idx row st)).
        rewrite Hconn in IH. by apply IH.
    + specialize (IH (idx + 1)%nat (import_row now sql params_of idx row st)).
      rewrite Hconn in IH. by apply IH.
  - specialize (IH (idx + 1)%nat (import_row now sql params_of idx row st)).
    rewrite Hconn in IH. by apply IH.
  - specialize (IH (idx + 1)%nat (import_row now sql params_of idx row st)).
    rewrite Hconn in IH. by apply IH.
Qed.

(** After the commit, the connection holds the table of the run, or the
    table it started from when a statement was refused. *)
Lemma import_problems_conn now tbl df :
  conn (import_problems now sql params_of (connect tbl) df) =
  connect (default tbl (run_table sql params_of now df tbl)).
Proof.
  unfold import_problems, finish, commit. cbn [conn].
  destruct (import_rows_run now df 0%nat (start (connect tbl)) eq_refl) as [Hc Hrun].
  cbn [start conn connect committed pending] in Hc, Hrun.
  destruct (run_table sql params_of now df tbl) as [tbl'|]; cbn [default].
  - destruct Hrun as [Hp Hf]. by rewrite Hf, Hp.
  - by rewrite Hrun, Hc.
Qed.

End Run.

(** ** Importing twice *)

Lemma bind_values_now n n' vs : forall params,
  is_Some (bind_values n vs params) -> is_Some (bind_values n' vs params).
Proof.
  induction vs as [|[] vs IH]; intros params; simpl; [done| | | |done].
  - destruct params as [|p params]; [done|].
    intros [l Hl]. destruct (bind_values n vs params) eqn:Hb; [|done].
    destruct (IH params) as [l' ->]; [by rewrite Hb|]. by eexists.
  - intros [l Hl]. destruct (bind_values n vs params) eqn:Hb; [|done].
    destruct (IH params) as [l' ->]; [by rewrite Hb|]. by eexists.
  - intros [l Hl]. destruct (bind_values n vs params) eqn:Hb; [|done].
    destruct (IH params) as [l' ->]; [by rewrite Hb|]. by eexists.
Qed.

Section Twice.
Context {R : FloatRepr} {D : Schema}.
Variable sql : statement.
Variable params_of : gmap string value -> result (option (list sqlval)).
Hypothesis Hsql : restamps sql.

Lemma run_table_lookup now key df : forall tbl tbl',
  run_table sql params_of now df tbl = Some tbl' ->
  tbl' !! key = run_entry sql params_of now key df (tbl !! key).
Proof.
  induction df as [|row df IH]; intros tbl tbl'; simpl; [by intros [= ->]|].
  unfold run_entry. simpl. unfold entry_step at 2.
  destruct (params_of row) as [[params|]|e]; [|apply IH|apply IH].
  destruct (bind_values now (values sql) params) as [vals|]; [|apply IH].
  destruct (violation sql params) as [msg|]; [done|].
  intros Hrun. rewrite (IH _ _ Hrun). unfold run_entry. f_equal.
  case_decide as Hkey.
  - subst key. apply upsert_lookup.
  - by apply upsert_lookup_ne.
Qed.

Lemma run_table_refused n n' df : forall tbl tbl',
  run_table sql params_of n df tbl = None ->
  run_table sql params_of n' df tbl' = None.
Proof.
  induction df as [|row df IH]; intros tbl tbl'; simpl; [done|].
  destruct (params_of row) as [[params|]|e]; [|apply IH|apply IH].
  destruct (bind_values n (values sql) params) as [vals|] eqn:Hb.
  - destruct (bind_values_now n n' (values sql) params) as [vals' ->]; [by rewrite Hb|].
    destruct (violation sql params); [done|]. apply IH.
  - destruct (bind_values n' (values sql) params) as [vals'|] eqn:Hb'; [|apply IH].
    destruct (bind_values_now n' n (values sql) params) as [vals Hvals]; [by rewrite Hb'|].
    congruence.
Qed.

(** An existing record stays, and keeps the columns outside the SET list. *)
Lemma run_entry_Some now key df : forall r,
  exists r', run_entry sql params_of now key df (Some r) = Some r' /\
    forall c, (list_to_map (do_update_set sql) : gmap string sql_expr) !! c = None ->
              r' !! c = r !! c.
Proof.
  induction df as [|row df IH]; intros r; [by exists r|].
  unfold run_entry. simpl. unfold entry_step at 2.
  destruct (params_of row) as [[params|]|e]; [|apply IH|apply IH].
  destruct (bind_values now (values sql) params) as [vals|]; [|apply IH].
  destruct (violation sql params) as [msg|]; [apply IH|].
  cbv zeta. case_decide; [|apply IH].
  destruct (IH (set_values now sql (proposed_row now sql vals) ∪ r)) as (r' & Hr' & Hkept).
  exists r'. split; [exact Hr'|].
  intros c Hc. rewrite (Hkept c Hc). by apply updated_row_kept.
Qed.

(** A row either leaves the record under [key] alone at both times, or
    writes it at both times. *)
Lemma entry_step_cases n1 n2 key row :
  (forall o, entry_step sql params_of n1 key o row = o /\ entry_step sql params_of n2 key o row = o)
  \/ exists params vals1 vals2,
       bind_values n1 (values sql) params = Some vals1 /\
       bind_values n2 (values sql) params = Some vals2 /\
       forall o,
         entry_step sql params_of n1 key o row =
           Some match o with
                | None => proposed_row n1 sql vals1
                | Some old => set_values n1 sql (proposed_row n1 sql vals1) ∪ old
                end
         /\ entry_step sql params_of n2 key o row =
           Some match o with
                | None => proposed_row n2 sql vals2
                | Some old => set_values n2 sql (proposed_row n2 sql vals2) ∪ old
                end.
Proof.
  unfold entry_step.
  destruct (params_of row) as [[params|]|e]; [|by left|by left].
  destruct (bind_values n1 (values sql) params) as [vals1|] eqn:Hb1.
  - destruct (bind_values_now n1 n2 (values sql) params) as [vals2 Hb2]; [by rewrite Hb1|].
    rewrite Hb2. destruct (violation sql params); [by left|].
    destruct (Hsql n1 n2 params vals1 vals2 Hb1 Hb2) as [Hkey _].
    cbv zeta. rewrite <- Hkey. case_decide; [|by left].
    right. by exists params, vals1, vals2.
  - destruct (bind_values n2 (values sql) params) as [vals2|] eqn:Hb2; [|by left].
    destruct (bind_values_now n2 n1 (values sql) params) as [vals1 Hvals1]; [by rewrite Hb2|].
    congruence.
Qed.

Lemma run_entry_twice n1 n2 key df : forall o,
  delete "updated_at" <$> run_entry sql params_of n2 key df (run_entry sql params_of n1 key df o) =
  delete "updated_at" <$> run_entry sql params_of n1 key df o.
Proof.
  induction df as [|row df IH] using rev_ind; intros o; [done|].
  unfold run_entry in *. rewrite !foldl_snoc.
  destruct (entry_step_cases n1 n2 key row) as [Hsame|(params & vals1 & vals2 & Hb1 & Hb2 & Hwrite)].
  - rewrite (proj1 (Hsame _)), (proj2 (Hsame _)). apply IH.
  - destruct (Hsql n1 n2 params vals1 vals2 Hb1 Hb2) as [_ Hset].
    rewrite (proj1 (Hwrite (foldl (entry_step sql params_of n1 key) o df))).
    match goal with |- context [foldl (entry_step sql params_of n2 key) (Some ?r) df] =>
      destruct (run_entry_Some n2 key df r) as (r' & Hr' & Hkept) end.
    unfold run_entry in Hr'. rewrite Hr', (proj2 (Hwrite (Some r'))).
    cbn [fmap option_fmap option_map]. f_equal. apply map_eq. intros c.
    destruct (decide (c = "updated_at")) as [->|Hc]; [by rewrite !lookup_delete_eq|].
    rewrite !lookup_delete_ne by done.
    destruct ((list_to_map (do_update_set sql) : gmap string sql_expr) !! c) as [e|] eqn:Hcol.
    + rewrite (updated_row_set _ _ _ _ _ _ Hcol).
      pose proof (elem_of_list_to_map_2 _ _ _ Hcol) as Hin.
      rewrite Forall_forall in Hset. destruct (Hset _ Hin Hc) as [Hins Hupd].
      cbn [fst snd] in Hins, Hupd.
      destruct (foldl (entry_step sql params_of n1 key) o df) as [old|].
      * by rewrite (updated_row_set _ _ _ _ _ _ Hcol), Hupd.
      * by rewrite Hins.
    + rewrite (updated_row_kept _ _ _ _ _ Hcol). by apply Hkept.
Qed.

(** A second import of the same rows leaves the committed table as the
    first left it, the column [updated_at] apart. *)
Lemma import_problems_twice n1 n2 tbl df :
  let first := import_problems n1 sql params_of (connect tbl) df in
  let second := import_problems n2 sql params_of (conn first) df in
  delete "updated_at" <$> committed (conn second) =
  delete "updated_at" <$> committed (conn first).
Proof.
  cbv zeta. rewrite (import_problems_conn sql params_of n1 tbl df).
  rewrite (import_problems_conn sql params_of n2). cbn [connect committed].
  destruct (run_table sql params_of n1 df tbl) as [tbl1|] eqn:Hrun1; simpl.
  - destruct (run_table sql params_of n2 df tbl1) as [tbl2|] eqn:Hrun2; simpl; [|done].
    apply map_eq. intros key. rewrite !lookup_fmap.
    rewrite (run_table_lookup n2 key df _ _ Hrun2), (run_table_lookup n1 key df _ _ Hrun1).
    apply run_entry_twice.
  - by rewrite (run_table_refused n1 n2 df tbl tbl Hrun1).
Qed.

(** A record that a row of the sheet writes exists after the run, and if
    it existed before, it carries the stamp of the run. *)
Hypothesis Hstamp : forall now excluded, stamped now (set_values now sql excluded).

Lemma updated_row_stamped now excluded old :
  stamped now (set_values now sql excluded ∪ old).
Proof.
  destruct (Hstamp now excluded) as [Hupdated Hsource].
  split; by apply lookup_union_Some_l.
Qed.

Lemma entry_step_stamped now key row r :
  stamped now r ->
  exists r', entry_step sql params_of now key (Some r) row = Some r' /\ stamped now r'.
Proof.
  intros Hr. unfold entry_step.
  destruct (params_of row) as [[params|]|e]; [|by exists r|by exists r].
  destruct (bind_values now (values sql) params) as [vals|]; [|by exists r].
  destruct (violation sql params); [by exists r|].
  cbv zeta. case_decide; [|by exists r].
  eexists. split; [reflexivity|]. apply updated_row_stamped.
Qed.

Lemma run_entry_stamped now key df : forall r,
  stamped now r ->
  exists r', run_entry sql params_of now key df (Some r) = Some r' /\ stamped now r'.
Proof.
  induction df as [|row df IH]; intros r Hr; [by exists r|].
  unfold run_entry. simpl.
  destruct (entry_step_stamped now key row r Hr) as (r1 & -> & Hr1).
  by apply IH.
Qed.

Lemma run_entry_written now key pre row post params vals o :
  params_of row = Ok (Some params) ->
  bind_values now (values sql) params = Some vals ->
  violation sql params = None ->
  key = conflict_key sql (proposed_row now sql vals) ->
  exists r', run_entry sql params_of now key (pre ++ row :: post) o = Some r' /\
             (is_Some o -> stamped now r').
Proof.
  intros Hparams Hbind Haccept Hkey. unfold run_entry.
  rewrite foldl_app. simpl.
  set (o1 := foldl (entry_step sql params_of now key) o pre).
  assert (is_Some o -> is_Some o1) as Hsome.
  { intros [r ->]. destruct (run_entry_Some now key pre r) as (r1 & Hr1 & _).
    unfold o1. unfold run_entry in Hr1. rewrite Hr1. eauto. }
  unfold entry_step at 2. rewrite Hparams, Hbind, Haccept. cbv zeta.
  rewrite decide_True by done.
  destruct o1 as [r1|] eqn:Ho1.
  - destruct (run_entry_stamped now key post _
                (updated_row_stamped now (proposed_row now sql vals) r1))
      as (r' & Hr' & Hstamped).
    exists r'. split; [exact Hr'|done].
  - destruct (run_entry_Some now key post (proposed_row now sql vals)) as (r' & Hr' & _).
    exists r'. split; [exact Hr'|]. intros Ho. by destruct (Hsome Ho).
Qed.

Lemma run_table_accepted now df : forall tbl,
  accepted sql params_of df -> is_Some (run_table sql params_of now df tbl).
Proof.
  induction df as [|row df IH]; intros tbl Hdf; simpl; [eauto|].
  unfold accepted in Hdf. apply Forall_cons in Hdf as [Hrow Hdf].
  destruct (params_of row) as [[params|]|e]; [|by apply IH|by apply IH].
  destruct (bind_values now (values sql) params) as [vals|]; [|by apply IH].
  rewrite (Hrow params eq_refl). by apply IH.
Qed.

(** After the second import, every record the sheet writes carries the
    stamp of the second import. *)
Lemma import_problems_twice_stamped n1 n2 tbl df row params vals :
  accepted sql params_of df ->
  row ∈ df ->
  params_of row = Ok (Some params) ->
  bind_values n2 (values sql) params = Some vals ->
  let first := import_problems n1 sql params_of (connect tbl) df in
  let second := import_problems n2 sql params_of (conn first) df in
  exists record,
    committed (conn second) !! conflict_key sql (proposed_row n2 sql vals) = Some record
    /\ stamped n2 record.
Proof.
  intros Hdf Hrow Hparams Hbind2. cbv zeta.
  rewrite (import_problems_conn sql params_of n1 tbl df).
  rewrite (import_problems_conn sql params_of n2). cbn [connect committed].
  destruct (run_table_accepted n1 df tbl Hdf) as [tbl1 Hrun1]. rewrite Hrun1. simpl.
  destruct (run_table_accepted n2 df tbl1 Hdf) as [tbl2 Hrun2]. rewrite Hrun2. simpl.
  destruct (bind_values_now n2 n1 (values sql) params) as [vals1 Hbind1];
    [by rewrite Hbind2|].
  destruct (Hsql n1 n2 params vals1 vals Hbind1 Hbind2) as [Hkey _].
  apply list_elem_of_split in Hrow as (pre & post & ->).
  assert (violation sql params = None) as Haccept.
  { unfold accepted in Hdf. rewrite Forall_app, Forall_cons in Hdf.
    destruct Hdf as (_ & Hrow & _). by apply Hrow. }
  set (key := conflict_key sql (proposed_row n2 sql vals)).
  rewrite (run_table_lookup n2 key _ _ _ Hrun2), (run_table_lookup n1 key _ _ _ Hrun1).
  destruct (run_entry_written n1 key pre row post params vals1 (tbl !! key)
              Hparams Hbind1 Haccept) as (r1 & -> & _); [by rewrite Hkey|].
  destruct (run_entry_written n2 key pre row post params vals (Some r1)
              Hparams Hbind2 Haccept eq_refl) as (r2 & -> & Hstamped).
  exists r2. split; [done|]. apply Hstamped. eauto.
Qed.

End Twice.

(** ** The two statements restamp *)

Lemma bind_values_fill now vs : forall params vals,
  bind_values now vs params = Some vals ->
  vals = fill now vs params /\ length params = placeholders vs.
Proof.
  induction vs as [|[] vs IH]; intros params vals; simpl.
  - destruct params; [by intros [= <-]|done].
  - destruct params as [|p params]; [done|].
    destruct (bind_values now vs params) as [l|] eqn:Hb; [|done].
    intros [= <-]. destruct (IH _ _ Hb) as [-> Hlen]. simpl. by rewrite Hlen.
  - destruct (bind_values now vs params) as [l|] eqn:Hb; [|done].
    intros [= <-]. destruct (IH _ _ Hb) as [-> Hlen]. simpl. by rewrite Hlen.
  - destruct (bind_values now vs params) as [l|] eqn:Hb; [|done].
    intros [= <-]. destruct (IH _ _ Hb) as [-> Hlen]. simpl. by rewrite Hlen.
  - done.
Qed.

Ltac listed :=
  match goal with
  | |- context [proposed_row ?n ?s ?vals !! ?c] =>
      erewrite (proposed_row_listed n s vals c) by (vm_compute; reflexivity)
  end.

Ltac restamp_columns :=
  repeat first
    [ apply Forall_nil_2
    | apply Forall_cons_2;
      [ intros Hc; cbn [fst snd eval_set] in *; first [ by destruct Hc | repeat listed; by split ] | ] ].

Section Restamp.
Context {D : Schema}.

Lemma pe_sql_restamps : restamps pe_sql.
Proof.
  intros n n' params vals vals' Hb Hb'.
  apply bind_values_fill in Hb as [-> Hlen], Hb' as [-> _].
  cbn in Hlen.
  do 20 (destruct params as [|? params]; [discriminate Hlen|]).
  destruct params; [|discriminate Hlen]. clear Hlen.
  cbn [fill values pe_sql]. split.
  - unfold conflict_key. cbn [conflict_target pe_sql fmap list_fmap].
    by repeat listed.
  - cbn [do_update_set pe_sql]. restamp_columns.
Qed.

Lemma ib_sql_restamps : restamps ib_sql.
Proof.
  intros n n' params vals vals' Hb Hb'.
  apply bind_values_fill in Hb as [-> Hlen], Hb' as [-> _].
  cbn in Hlen.
  do 19 (destruct params as [|? params]; [discriminate Hlen|]).
  destruct params; [|discriminate Hlen]. clear Hlen.
  cbn [fill values ib_sql]. split.
  - unfold conflict_key. cbn [conflict_target ib_sql fmap list_fmap].
    by repeat listed.
  - cbn [do_update_set ib_sql]. restamp_columns.
Qed.

Lemma pe_sql_stamps now excluded : stamped now (set_values now pe_sql excluded).
Proof.
  split.
  - by rewrite (set_values_lookup now pe_sql excluded "updated_at" NOW)
      by (vm_compute; reflexivity).
  - by rewrite (set_values_lookup now pe_sql excluded "source"
                  (Literal (SText "legacy_sheets"))) by (vm_compute; reflexivity).
Qed.

Lemma ib_sql_stamps now excluded : stamped now (set_values now ib_sql excluded).
Proof.
  split.
  - by rewrite (set_values_lookup now ib_sql excluded "updated_at" NOW)
      by (vm_compute; reflexivity).
  - by rewrite (set_values_lookup now ib_sql excluded "source"
                  (Literal (SText "legacy_sheets"))) by (vm_compute; reflexivity).
Qed.

(** The key of a statement is the problem id and the environment. *)
Lemma pe_sql_key now problem_id rest :
  length rest = 19%nat ->
  exists vals,
    bind_values now (values pe_sql) (SText problem_id :: rest) = Some vals /\
    conflict_key pe_sql (proposed_row now pe_sql vals) = [SText problem_id; SText "PE"].
Proof.
  intros Hlen.
  do 19 (destruct rest as [|? rest]; [discriminate Hlen|]).
  destruct rest; [|discriminate Hlen]. clear Hlen.
  eexists. split; [reflexivity|].
  unfold conflict_key. cbn [conflict_target pe_sql fmap list_fmap].
  by repeat listed.
Qed.

Lemma ib_sql_key now problem_id rest :
  length rest = 18%nat ->
  exists vals,
    bind_values now (values ib_sql) (SText problem_id :: rest) = Some vals /\
    conflict_key ib_sql (proposed_row now ib_sql vals) = [SText problem_id; SText "IB"].
Proof.
  intros Hlen.
  do 18 (destruct rest as [|? rest]; [discriminate Hlen|]).
  destruct rest; [|discriminate Hlen]. clear Hlen.
  eexists. split; [reflexivity|].
  unfold conflict_key. cbn [conflict_target ib_sql fmap list_fmap].
  by repeat listed.
Qed.

End Restamp.

Ltac run_binds H :=
  repeat match type of H with
         | mbind _ ?x = _ => destruct x; cbn [mbind result_bind] in H; [|discriminate H]
         end.

Section Params.
Context {R : FloatRepr}.

(** The parameters of a row that has an id: the id, then nineteen values
    for the PE statement, eighteen for the IB statement. *)
Lemma pe_params_shape m row params :
  pe_params m row = Ok (Some params) ->
  exists problem_id rest,
    params = SText problem_id :: rest /\ length rest = 19%nat
    /\ problem_id_of row = Ok (Some problem_id).
Proof.
  unfold pe_params. intros H.
  destruct (problem_id_of row) as [[[|c problem_id]|]|]; cbn [mbind result_bind] in H;
    try discriminate H.
  run_binds H. injection H as <-. by eexists _, _.
Qed.

Lemma ib_params_shape m row params :
  ib_params m row = Ok (Some params) ->
  exists problem_id rest,
    params = SText problem_id :: rest /\ length rest = 18%nat
    /\ problem_id_of row = Ok (Some problem_id).
Proof.
  unfold ib_params. intros H.
  destruct (problem_id_of row) as [[[|c problem_id]|]|]; cbn [mbind result_bind] in H;
    try discriminate H.
  run_binds H. injection H as <-. by eexists _, _.
Qed.

End Params.

(** ** The properties of the importers *)

Section Claims.
Context {R : FloatRepr} {D : Schema}.

(** C2. Importing the same rows a second time, into the table the first
    import committed, commits a table with the same keys and the same value
    in every column except [updated_at]; [source] is among the columns that
    stay, the first import having stamped it already. And when the database
    refuses none of the statements, every record the sheet writes then
    carries the time of the second import in [updated_at] and the literal
    'legacy_sheets' in [source]. Both importers. *)
Theorem reimport_is_idempotent n1 n2 tbl expert_map df :
  (let first := import_pe_problems n1 (connect tbl) expert_map df in
   let second := import_pe_problems n2 (conn first) expert_map df in
   delete "updated_at" <$> committed (conn second) =
   delete "updated_at" <$> committed (conn first)
   /\ (accepted pe_sql (pe_params expert_map) df ->
       forall row params,
         row ∈ df -> pe_params expert_map row = Ok (Some params) ->
         exists problem_id record,
           problem_id_of row = Ok (Some problem_id)
           /\ committed (conn second) !! [SText problem_id; SText "PE"] = Some record
           /\ record !! "updated_at" = Some (STimestamp n2)
           /\ record !! "source" = Some (SText "legacy_sheets")))
  /\
  (let first := import_ib_problems n1 (connect tbl) expert_map df in
   let second := import_ib_problems n2 (conn first) expert_map df in
   delete "updated_at" <$> committed (conn second) =
   delete "updated_at" <$> committed (conn first)
   /\ (accepted ib_sql (ib_params expert_map) df ->
       forall row params,
         row ∈ df -> ib_params expert_map row = Ok (Some params) ->
         exists problem_id record,
           problem_id_of row = Ok (Some problem_id)
           /\ committed (conn second) !! [SText problem_id; SText "IB"] = Some record
           /\ record !! "updated_at" = Some (STimestamp n2)
           /\ record !! "source" = Some (SText "legacy_sheets"))).
Proof.
  split; cbv zeta; (split; [apply import_problems_twice|]).
  - apply pe_sql_restamps.
  - intros Hdf row params Hrow Hparams.
    destruct (pe_params_shape _ _ _ Hparams) as (problem_id & rest & -> & Hlen & Hid).
    destruct (pe_sql_key n2 problem_id rest Hlen) as (vals & Hbind & Hkey).
    destruct (import_problems_twice_stamped pe_sql (pe_params expert_map)
                pe_sql_restamps pe_sql_stamps n1 n2 tbl df row _ vals
                Hdf Hrow Hparams Hbind) as (record & Hrecord & Hupdated & Hsource).
    rewrite Hkey in Hrecord. by exists problem_id, record.
  - apply ib_sql_restamps.
  - intros Hdf row params Hrow Hparams.
    destruct (ib_params_shape _ _ _ Hparams) as (problem_id & rest & -> & Hlen & Hid).
    destruct (ib_sql_key n2 problem_id rest Hlen) as (vals & Hbind & Hkey).
    destruct (import_problems_twice_stamped ib_sql (ib_params expert_map)
                ib_sql_restamps ib_sql_stamps n1 n2 tbl df row _ vals
                Hdf Hrow Hparams Hbind) as (record & Hrecord & Hupdated & Hsource).
    rewrite Hkey in Hrecord. by exists problem_id, record.
Qed.

(** C7. A row whose [ID] cell is missing ([None] or [nan]) or holds the
    empty string is not sent to the database and adds nothing to the error
    list: [skipped] grows by one and the importer goes on with the rows
    after it. Both importers. *)
Theorem row_without_id_is_skipped now expert_map c pre row post v :
  row !! "ID" = Some v ->
  isna v = true \/ str v = "" ->
  (let st := import_rows now pe_sql (pe_params expert_map) 0 pre (start c) in
   import_pe_problems now c expert_map (pre ++ row :: post) =
   finish (import_rows now pe_sql (pe_params expert_map) (length pre + 1) post
             {| conn := conn st; imported := imported st;
                skipped := skipped st + 1; errors := errors st |}))
  /\
  (let st := import_rows now ib_sql (ib_params expert_map) 0 pre (start c) in
   import_ib_problems now c expert_map (pre ++ row :: post) =
   finish (import_rows now ib_sql (ib_params expert_map) (length pre + 1) post
             {| conn := conn st; imported := imported st;
                skipped := skipped st + 1; errors := errors st |})).
Proof.
  intros Hid Hblank. split; apply import_problems_continue.
  - by apply (pe_params_blank expert_map row v).
  - by apply (ib_params_blank expert_map row v).
Qed.

(** C10. Each round of the loop adds one to exactly one of [imported] and
    [skipped]; after the loop their sum is the number of rows, and the
    error list is no longer than [skipped]. Both importers. *)
Theorem every_row_is_counted_once now expert_map c df :
  (forall sql params_of idx row st,
     let st' := import_row now sql params_of idx row st in
     imported st' = (imported st + 1)%nat /\ skipped st' = skipped st
     \/ imported st' = imported st /\ skipped st' = (skipped st + 1)%nat)
  /\
  (let r := import_pe_problems now c expert_map df in
   (imported r + skipped r)%nat = length df /\ (length (errors r) <= skipped r)%nat)
  /\
  (let r := import_ib_problems now c expert_map df in
   (imported r + skipped r)%nat = length df /\ (length (errors r) <= skipped r)%nat).
Proof.
  split; [|split].
  - intros sql params_of idx row st. unfold import_row.
    destruct (try_body now sql params_of (conn st) row) as [c1 [[]|e]]; simpl; auto.
  - apply import_problems_counts.
  - apply import_problems_counts.
Qed.

End Claims.

Lemma reimport_is_idempotent_witness :
  let first := @import_pe_problems any_repr plain_schema 100 (connect ∅) scenario_map
                 [scenario_row] in
  let second := @import_pe_problems any_repr plain_schema 200 (conn first) scenario_map
                  [scenario_row] in
  exists problem_id record,
    @problem_id_of any_repr scenario_row = Ok (Some problem_id)
    /\ committed (conn second) !! [SText problem_id; SText "PE"] = Some record
    /\ record !! "updated_at" = Some (STimestamp 200)
    /\ record !! "source" = Some (SText "legacy_sheets").
Proof.
  apply (proj2 (proj1 (@reimport_is_idempotent any_repr plain_schema 100 200 ∅
                         scenario_map [scenario_row])))
    with (params := scenario_params).
  - repeat constructor.
  - repeat constructor.
  - vm_compute. reflexivity.
Defined.

Lemma row_without_id_is_skipped_witness :
  let r := @import_pe_problems any_repr plain_schema 0 (connect ∅) scenario_map
             [no_id_row; good_row] in
  imported r = 1%nat /\ skipped r = 1%nat /\ errors r = []
  /\ size (committed (conn r)) = 1%nat.
Proof.
  cbv zeta.
  rewrite (proj1 (@row_without_id_is_skipped any_repr plain_schema 0 scenario_map
             (connect ∅) [] no_id_row [good_row] (VFloat nan) eq_refl (or_introl eq_refl))).
  repeat split; vm_compute; reflexivity.
Defined.

Lemma pe_import_end_to_end_witness :
  let r := @import_pe_problems any_repr plain_schema 0 (connect ∅) scenario_map
             [scenario_row] in
  imported r = 1%nat /\
  exists record,
    committed (conn r) !! [SText "P-100"; SText "PE"] = Some record /\
    record !! "sme_id" = Some (SInt 1) /\
    record !! "spec_number" = Some (SInt 5) /\
    record !! "source" = Some (SText "legacy_sheets").
Proof.
  destruct (@pe_import_end_to_end any_repr plain_schema 0 ∅ eq_refl)
    as (_ & _ & _ & Himported & _ & _ & record & Hrecord & _ & _ & Hsme & Hspec & _ & Hsource).
  - apply map_Forall_empty.
  - split; [exact Himported|]. exists record. auto.
Defined.

(** ** Whitespace-only names *)

(** C1. On a name that is only whitespace the resolver does not reach the
    end of the specified order: the trimmed string is empty, [split()] of it
    has no first token, and [split()[0]] raises, where the order as
    specified gives no identifier. *)
Lemma resolve_expert_name_whitespace_only :
  @resolve_expert_name any_repr (VStr "   ") scenario_map = Raise IndexError
  /\ @resolve_as_specified any_repr (VStr "   ") scenario_map = None.
Proof. split; vm_compute; reflexivity. Qed.

(** C4. A row whose SME cell is only whitespace is not imported with a
    null assignment: the exception of the resolver reaches the handler of
    the loop, and the row is logged and counted as skipped. *)
Lemma whitespace_only_name_skips_row :
  let r := @import_pe_problems any_repr plain_schema 0 (connect ∅) scenario_map
             [blank_sme_row] in
  imported r = 0%nat /\ skipped r = 1%nat /\ errors r = [(0%nat, IndexError)]
  /\ committed (conn r) = ∅.
Proof. repeat split; vm_compute; reflexivity. Qed.

(** C9. Two sheets that differ only in the cell [Reviewer 2] of their one
    row, one of them holding only whitespace there: the first row is logged
    and skipped, the second is imported. *)
Lemma reviewer2_value_changes_outcome :
  let a := @import_pe_problems any_repr plain_schema 0 (connect ∅) scenario_map
             [blank_reviewer2_row] in
  let b := @import_pe_problems any_repr plain_schema 0 (connect ∅) scenario_map
             [other_reviewer2_row] in
  delete "Reviewer 2" blank_reviewer2_row = delete "Reviewer 2" other_reviewer2_row
  /\ (imported a, skipped a, errors a) = (0%nat, 1%nat, [(0%nat, IndexError)])
  /\ (imported b, skipped b, errors b) = (1%nat, 0%nat, [])
  /\ size (committed (conn a)) = 0%nat
  /\ size (committed (conn b)) = 1%nat.
Proof. repeat split; vm_compute; reflexivity. Qed.

(** * Further properties *)

(** ** Strings, continued *)

Lemma lower_char_lower_char c : lower_char (lower_char c) = lower_char c.
Proof. by destruct c as [[] [] [] [] [] [] [] []]. Qed.

Lemma lower_lower s : lower (lower s) = lower s.
Proof. induction s as [|c s IH]; simpl; [done|]. by rewrite lower_char_lower_char, IH. Qed.

Lemma lstrip_id s : starts_with_space s = false -> lstrip s = s.
Proof. destruct s as [|c s]; simpl; [done|]. by intros ->. Qed.

Lemma rstrip_rstrip s : rstrip (rstrip s) = rstrip s.
Proof.
  induction s as [|c s IH]; simpl; [done|].
  destruct (rstrip s) as [|c' r] eqn:Hr.
  - destruct (isspace c) eqn:Hc; simpl; [done|]. by rewrite Hc.
  - change (rstrip (String c (String c' r))) with
      (match rstrip (String c' r) with
       | EmptyString => if isspace c then EmptyString else String c EmptyString
       | r' => String c r'
       end).
    by rewrite IH.
Qed.

Lemma strip_strip s : strip (strip s) = strip s.
Proof.
  unfold strip. rewrite (lstrip_id (rstrip (lstrip s))) by apply strip_start.
  apply rstrip_rstrip.
Qed.

Lemma has_space_app a b : has_space (a ++ b) = has_space a || has_space b.
Proof. induction a as [|c a IH]; simpl; [done|]. by rewrite IH, orb_assoc. Qed.

(** A token is not empty and holds no whitespace. *)
Lemma split_from_tokens s : forall cur t,
  t ∈ split_from cur s -> has_space cur = false -> has_space t = false /\ t ≠ "".
Proof.
  induction s as [|c s IH]; intros cur t; simpl.
  - case_bool_decide as Hcur; [by intros ?%elem_of_nil|].
    by intros ->%list_elem_of_singleton.
  - destruct (isspace c) eqn:Hc.
    + case_bool_decide as Hcur.
      * intros Ht _. by apply (IH "").
      * intros [->|Ht]%elem_of_cons Hspace; [done|]. by apply (IH "").
    + intros Ht Hspace. apply (IH _ _ Ht).
      rewrite has_space_app, Hspace. simpl. by rewrite Hc.
Qed.

Lemma first_token_no_space s t : head (split s) = Some t -> has_space t = false /\ t ≠ "".
Proof.
  intros Ht. apply (split_from_tokens s ""); [|done].
  unfold split in Ht. destruct (split_from "" s); [done|].
  injection Ht as ->. by left.
Qed.

(** ** The lookup table, continued *)

Lemma register_experts_Ok experts : forall m m',
  register_experts m experts = Ok m' -> named experts.
Proof.
  induction experts as [|[id name] rest IH]; intros m m';
    cbn [register_experts]; [by constructor|].
  destruct (register_expert m (id, name)) as [m1|] eqn:Hreg;
    cbn [mbind result_bind]; [|done].
  intros Hrest. constructor; [|by apply (IH m1 m')].
  unfold register_expert in Hreg. cbn [snd].
  by destruct (split (lower name)).
Qed.

Lemma register_experts_Raise experts : forall m e,
  register_experts m experts = Raise e <-> e = IndexError /\ unnamed experts.
Proof.
  unfold unnamed.
  induction experts as [|[id name] rest IH]; intros m e; cbn [register_experts].
  - split; [done|]. by intros [_ ?%Exists_nil].
  - rewrite Exists_cons. cbn [snd].
    unfold register_expert at 1.
    destruct (split (lower name)) as [|first_name tokens] eqn:Hsplit;
      cbn [item0 mbind result_bind].
    + split; [intros [= <-]; auto|by intros [-> _]].
    + case_bool_decide; cbn [mbind result_bind]; rewrite IH;
        (split; [intros [? ?]; auto|intros [? [?|?]]; [done|auto]]).
Qed.

Lemma last_full_name_Some experts key id :
  last_full_name experts key = Some id ->
  exists name, (id, name) ∈ experts /\ lower name = key.
Proof.
  induction experts as [|[id' name'] rest IH]; simpl; [done|].
  destruct (last_full_name rest key) as [id''|].
  - intros [= ->]. destruct IH as (name & Hin & Hname); [done|].
    exists name. split; [by right|done].
  - case_bool_decide; [|done]. intros [= ->]. exists name'. split; [by left|done].
Qed.

Lemma earliest_first_token_Some experts key id :
  earliest_first_token experts key = Some id ->
  exists name, (id, name) ∈ experts /\ head (split (lower name)) = Some key.
Proof.
  induction experts as [|[id' name'] rest IH]; simpl; [done|].
  case_bool_decide.
  - intros [= ->]. exists name'. split; [by left|done].
  - intros (name & Hin & Hname)%IH. exists name. split; [by right|done].
Qed.

Lemma last_full_name_app (pre post : list (Z * string)) key :
  last_full_name (pre ++ post)%list key =
  match last_full_name post key with
  | Some id => Some id
  | None => last_full_name pre key
  end.
Proof.
  induction pre as [|[id name] pre IH]; simpl.
  - by destruct (last_full_name post key).
  - rewrite IH. by destruct (last_full_name post key).
Qed.

Lemma last_full_name_None experts key :
  Forall (fun expert : Z * string => lower expert.2 ≠ key) experts ->
  last_full_name experts key = None.
Proof.
  induction 1 as [|[id name] rest Hname _ IH]; simpl; [done|].
  rewrite IH. by rewrite bool_decide_eq_false_2.
Qed.

(** Every entry of the table comes from an expert of the roster, through
    the full name or through the first token. *)
Lemma table_entry_Some experts key id :
  table_entry experts key = Some id ->
  exists name, (id, name) ∈ experts /\
    (lower name = key \/ head (split (lower name)) = Some key).
Proof.
  unfold table_entry.
  destruct (last_full_name experts key) as [id'|] eqn:Hfull.
  - intros [= ->]. destruct (last_full_name_Some _ _ _ Hfull) as (name & ? & ?). eauto.
  - intros (name & ? & ?)%earliest_first_token_Some. eauto.
Qed.

(** The first token of every expert is a key of the table. *)
Lemma table_entry_first_token experts id name key :
  (id, name) ∈ experts -> head (split (lower name)) = Some key ->
  is_Some (table_entry experts key).
Proof.
  intros Hin Hkey. unfold table_entry.
  destruct (last_full_name experts key); [eauto|].
  by apply (earliest_first_token_member experts id name).
Qed.

(** The empty string is no key of a table built from a roster. *)
Lemma get_expert_id_map_no_empty_key experts m :
  get_expert_id_map experts = Ok m -> m !! "" = None.
Proof.
  intros Hm. rewrite (get_expert_id_map_lookup _ _ _ Hm).
  destruct (table_entry experts "") as [id|] eqn:Hentry; [|done].
  destruct (table_entry_Some _ _ _ Hentry) as (name & Hin & [Hfull|Hfirst]).
  - apply register_experts_Ok in Hm. unfold named in Hm.
    rewrite Forall_forall in Hm. specialize (Hm _ Hin). cbn [snd] in Hm.
    by rewrite Hfull in Hm.
  - by destruct (first_token_no_space _ _ Hfirst).
Qed.

(** A key with whitespace in it is the full name of an expert, whose first
    token is a key as well. *)
Lemma spaced_key_first_token experts m full key :
  get_expert_id_map experts = Ok m ->
  has_space full = true -> head (split full) = Some key ->
  is_Some (m !! full) -> is_Some (m !! key).
Proof.
  intros Hm Hspace Hkey [id Hfull].
  rewrite (get_expert_id_map_lookup _ _ _ Hm) in Hfull.
  rewrite (get_expert_id_map_lookup _ _ _ Hm).
  destruct (table_entry_Some _ _ _ Hfull) as (name & Hin & [Hname|Hfirst]).
  - apply (table_entry_first_token experts id name); [done|]. by rewrite Hname.
  - destruct (first_token_no_space _ _ Hfirst). congruence.
Qed.

Section ResolverMore.
Context {R : FloatRepr}.

(** The resolver sees a value through its truth and its trimmed,
    lower-cased string. *)
Lemma resolve_expert_name_ext v v' m :
  isna v || negb (truth v) = isna v' || negb (truth v') ->
  name_str v = name_str v' ->
  resolve_expert_name v m = resolve_expert_name v' m.
Proof. unfold resolve_expert_name. by intros -> ->. Qed.

(** An id the resolver returns is stored in the table. *)
Lemma resolve_expert_name_Some v m id :
  resolve_expert_name v m = Ok (Some id) -> exists key, m !! key = Some id.
Proof.
  unfold resolve_expert_name.
  destruct (isna v || negb (truth v)); [discriminate|].
  destruct (m !! name_str v) as [id'|] eqn:Hdirect; [intros [= <-]; eauto|].
  destruct (split (name_str v)) as [|first_name tokens]; [discriminate|].
  cbn [item0 mbind result_bind].
  destruct (m !! first_name) as [id'|] eqn:Hfirst; [intros [= <-]; eauto|].
  destruct (aliases !! name_str v) as [full_name|]; [|discriminate].
  destruct (m !! full_name) as [id'|] eqn:Hfull; [intros [= <-]; eauto|discriminate].
Qed.

Lemma name_str_trimmed s : strip s ≠ "" ->
  isna (VStr s) || negb (truth (VStr s)) = false
  /\ isna (VStr (lower (strip s))) || negb (truth (VStr (lower (strip s)))) = false
  /\ name_str (VStr (lower (strip s))) = name_str (VStr s).
Proof.
  intros Hne. unfold name_str. cbn [isna truth str orb].
  repeat split.
  - rewrite bool_decide_eq_false_2; [done|]. by intros ->.
  - rewrite bool_decide_eq_false_2; [done|]. by destruct (strip s).
  - by rewrite <- lower_strip, strip_strip, lower_lower.
Qed.

End ResolverMore.

(** ** Properties of the resolver *)

Section ResolverProperties.
Context {R : FloatRepr}.

(** X1. [resolve_expert_name] raises nothing but [IndexError], and raises
    it exactly when the value is neither missing nor false, its trimmed
    string is empty, and the empty string is no key of the table. *)
Theorem resolver_raises_only_on_blank v m e :
  resolve_expert_name v m = Raise e <->
  e = IndexError /\ isna v || negb (truth v) = false
  /\ name_str v = "" /\ m !! "" = None.
Proof. apply resolve_expert_name_raises. Qed.

(** X2. For a value that is neither missing nor counted as false by
    Python (the empty string, zero, [False]) and whose trimmed string is not
    empty, [resolve_expert_name] returns, and returns what the three lookups
    give in their order: the lower-cased trimmed name as a direct key, else
    its first token, else its alias target, else nothing. *)
Theorem resolver_follows_order v m :
  isna v || negb (truth v) = false ->
  name_str v ≠ "" ->
  resolve_expert_name v m = Ok (lookup_in_order (name_str v) m).
Proof.
  intros Hvalue Hne. rewrite resolve_expert_name_order by (by right; right).
  unfold resolve_as_specified, lookup_in_order.
  by rewrite Hvalue, <- name_str_trim_lower.
Qed.

(** X3. With a table built from a roster, every id the resolver returns is
    the id of an expert of that roster. *)
Theorem resolved_id_is_in_roster experts m v id :
  get_expert_id_map experts = Ok m ->
  resolve_expert_name v m = Ok (Some id) ->
  exists name, (id, name) ∈ experts.
Proof.
  intros Hm [key Hkey]%resolve_expert_name_Some.
  rewrite (get_expert_id_map_lookup _ _ _ Hm) in Hkey.
  destruct (table_entry_Some _ _ _ Hkey) as (name & Hin & _). eauto.
Qed.

(** X4. Resolution ignores case and surrounding whitespace: a name that is
    not only whitespace resolves as its trimmed, lower-cased form does. *)
Theorem resolution_ignores_case_and_padding s m :
  strip s ≠ "" ->
  resolve_expert_name (VStr s) m = resolve_expert_name (VStr (lower (strip s))) m.
Proof.
  intros (Hs & Hs' & Hname)%name_str_trimmed.
  apply resolve_expert_name_ext; [by rewrite Hs, Hs'|done].
Qed.

(** X5. Registering then resolving: the name of an expert as stored, when
    it has no surrounding whitespace, resolves to that expert, unless a
    later expert of the roster has the same name up to case. *)
Theorem stored_full_name_resolves experts m pre id name post :
  get_expert_id_map experts = Ok m ->
  experts = (pre ++ (id, name) :: post)%list ->
  strip name = name ->
  Forall (fun expert : Z * string => lower expert.2 ≠ lower name) post ->
  resolve_expert_name (VStr name) m = Ok (Some id).
Proof.
  intros Hm -> Htrim Hlater.
  assert (name ≠ "") as Hne.
  { pose proof (register_experts_Ok _ _ _ Hm) as Hnamed. unfold named in Hnamed.
    rewrite Forall_app, Forall_cons in Hnamed. destruct Hnamed as (_ & Hname & _).
    by intros ->. }
  apply resolve_expert_name_direct.
  - cbn [isna truth orb]. by rewrite bool_decide_eq_false_2.
  - unfold name_str. cbn [str]. rewrite Htrim.
    rewrite (get_expert_id_map_lookup _ _ _ Hm). unfold table_entry.
    rewrite last_full_name_app. cbn [last_full_name].
    rewrite (last_full_name_None post) by done.
    by rewrite bool_decide_eq_true_2.
Qed.

End ResolverProperties.

Lemma register_rows_text experts : forall m,
  register_rows m (text_rows experts) = register_experts m experts.
Proof.
  induction experts as [|[id name] rest IH]; intros m; [done|].
  cbn [text_rows fmap list_fmap register_rows register_experts].
  unfold register_row. cbn [fst snd].
  destruct (register_expert m (id, name)) as [m'|e]; cbn [mbind result_bind]; [|done].
  apply IH.
Qed.

Lemma register_rows_Raise rows : forall m e,
  register_rows m rows = Raise e <->
  exists pre id name post,
    rows = (pre ++ (id, name) :: post)%list
    /\ Forall (fun row : Z * option string =>
                 exists text, row.2 = Some text /\ split (lower text) ≠ []) pre
    /\ (name = None /\ e = AttributeError
        \/ exists text, name = Some text /\ split (lower text) = [] /\ e = IndexError).
Proof.
  induction rows as [|[id name] rest IH]; intros m e; cbn [register_rows].
  - split; [done|]. intros (pre & ? & ? & ? & Hrows & _). by destruct pre.
  - unfold register_row at 1. cbn [fst snd]. destruct name as [text|].
    + unfold register_expert at 1.
      destruct (split (lower text)) as [|first_name tokens] eqn:Hsplit;
        cbn [item0 mbind result_bind].
      * split.
        -- intros [= <-]. exists [], id, (Some text), rest.
           split; [done|]. split; [constructor|]. right. by exists text.
        -- intros (pre & id' & name' & post & Hrows & Hpre & Hbad).
           destruct pre as [|row pre]; simplify_eq/=.
           ++ destruct Hbad as [[? _]|(text' & ? & _ & ->)]; by simplify_eq.
           ++ apply Forall_cons in Hpre as [(text' & ? & Htext') _].
              by simplify_eq/=.
      * assert (forall m', register_rows m' rest = Raise e <->
                  exists pre id' name' post,
                    ((id, Some text) :: rest = pre ++ (id', name') :: post)%list
                    /\ Forall (fun row : Z * option string =>
                                 exists text, row.2 = Some text /\ split (lower text) ≠ []) pre
                    /\ (name' = None /\ e = AttributeError
                        \/ exists text, name' = Some text /\ split (lower text) = []
                                         /\ e = IndexError)) as Hrest.
        { intros m'. rewrite IH. split.
          - intros (pre & id' & name' & post & -> & Hpre & Hbad).
            exists ((id, Some text) :: pre), id', name', post.
            split; [done|]. split; [|done]. constructor; [|done].
            exists text. cbn. by rewrite Hsplit.
          - intros (pre & id' & name' & post & Hrows & Hpre & Hbad).
            destruct pre as [|row pre]; simplify_eq/=.
            + destruct Hbad as [[? _]|(text' & ? & Htext' & _)]; simplify_eq.
              by rewrite Hsplit in Htext'.
            + apply Forall_cons in Hpre as [_ Hpre]. by exists pre, id', name', post. }
        case_bool_decide; cbn [mbind result_bind]; apply Hrest.
    + cbn [mbind result_bind]. split.
      * intros [= <-]. exists [], id, None, rest.
        split; [done|]. split; [constructor|]. by left.
      * intros (pre & id' & name' & post & Hrows & Hpre & Hbad).
        destruct pre as [|row pre]; simplify_eq/=.
        -- destruct Hbad as [[_ ->]|(text' & ? & _)]; by simplify_eq.
        -- apply Forall_cons in Hpre as [(text' & ? & _) _]. by simplify_eq/=.
Qed.

(** X6. [get_expert_id_map] fails exactly when some row of the roster has
    a NULL name or a name without a token (empty or only whitespace), and
    the exception is that of the first such row: [AttributeError] for a
    NULL name, [IndexError] for a name without a token. On a roster of text
    names the function on rows is the function on names. *)
Theorem get_expert_id_map_failures rows e :
  (get_expert_id_map_rows rows = Raise e <->
   exists pre id name post,
     rows = (pre ++ (id, name) :: post)%list
     /\ Forall (fun row : Z * option string =>
                  exists text, row.2 = Some text /\ split (lower text) ≠ []) pre
     /\ (name = None /\ e = AttributeError
         \/ exists text, name = Some text /\ split (lower text) = [] /\ e = IndexError))
  /\ forall experts, get_expert_id_map_rows (text_rows experts) = get_expert_id_map experts.
Proof. split; [apply register_rows_Raise|intros experts; apply register_rows_text]. Qed.

(** X7. In a table built from a roster, an alias can only lead to an id
    for "rob" and "phil": the other twenty aliases are the first token of
    their own target, which is a key whenever the target is one. *)
Theorem alias_only_for_rob_and_phil experts m key full :
  get_expert_id_map experts = Ok m ->
  aliases !! key = Some full ->
  m !! key = None ->
  is_Some (m !! full) ->
  key = "rob" \/ key = "phil".
Proof.
  intros Hm Halias Hkey Hfull.
  unfold aliases in Halias. apply elem_of_list_to_map_2 in Halias.
  repeat (apply elem_of_cons in Halias as [Halias|Halias];
    [injection Halias as -> ->;
     first [ by left | by right
           | exfalso;
             match type of Hkey with
             | m !! ?k = None =>
                 match type of Hfull with
                 | is_Some (m !! ?f) =>
                     destruct (spaced_key_first_token experts m f k Hm eq_refl eq_refl Hfull)
                       as [id Hid]; congruence
                 end
             end ]
    |]).
  by apply elem_of_nil in Halias.
Qed.

Lemma resolver_follows_order_witness :
  @resolve_expert_name any_repr (VStr "  JERRY song ") scenario_map = Ok (Some 2).
Proof.
  rewrite (@resolver_follows_order any_repr).
  - vm_compute. reflexivity.
  - vm_compute. reflexivity.
  - vm_compute. discriminate.
Defined.

Lemma resolved_id_is_in_roster_witness :
  exists name, (1, name) ∈ scenario_roster.
Proof.
  apply (@resolved_id_is_in_roster any_repr scenario_roster scenario_map (VStr "rob") 1);
    vm_compute; reflexivity.
Defined.

Lemma resolution_ignores_case_and_padding_witness :
  @resolve_expert_name any_repr (VStr " Jerry SONG ") scenario_map =
  @resolve_expert_name any_repr (VStr (lower (strip " Jerry SONG "))) scenario_map.
Proof.
  apply (@resolution_ignores_case_and_padding any_repr). vm_compute. discriminate.
Defined.

Lemma stored_full_name_resolves_witness :
  @resolve_expert_name any_repr (VStr "Jerry Song") scenario_map = Ok (Some 2).
Proof.
  apply (@stored_full_name_resolves any_repr scenario_roster scenario_map
           [(1, "Robert Alward")] 2 "Jerry Song" []).
  - vm_compute. reflexivity.
  - reflexivity.
  - vm_compute. reflexivity.
  - constructor.
Defined.

Lemma alias_only_for_rob_and_phil_witness : "rob" = "rob" \/ "rob" = "phil".
Proof.
  apply (alias_only_for_rob_and_phil scenario_roster scenario_map "rob" "robert alward").
  - vm_compute. reflexivity.
  - vm_compute. reflexivity.
  - vm_compute. reflexivity.
  - exists 1. vm_compute. reflexivity.
Defined.

(** ** What a run does to one record *)

Section Entries.
Context {R : FloatRepr} {D : Schema}.
Variable sql : statement.
Variable params_of : gmap string value -> result (option (list sqlval)).

Lemma entry_step_other now key o row :
  ~ writes sql params_of now row key ->
  entry_step sql params_of now key o row = o.
Proof.
  intros Hother. unfold entry_step.
  destruct (params_of row) as [[params|]|e] eqn:Hparams; [|done|done].
  destruct (bind_values now (values sql) params) as [vals|] eqn:Hbind; [|done].
  destruct (violation sql params); [done|].
  cbv zeta. case_decide as Hkey; [|done].
  exfalso. apply Hother. by exists params, vals.
Qed.

Lemma run_entry_other now key df : forall o,
  Forall (fun row => ~ writes sql params_of now row key) df ->
  run_entry sql params_of now key df o = o.
Proof.
  induction df as [|row df IH]; intros o Hdf; [done|].
  apply Forall_cons in Hdf as [Hrow Hdf].
  unfold run_entry. simpl. rewrite entry_step_other by done. by apply IH.
Qed.

Lemma run_table_refusing now df : forall tbl row params,
  row ∈ df -> params_of row = Ok (Some params) ->
  is_Some (bind_values now (values sql) params) ->
  is_Some (violation sql params) ->
  run_table sql params_of now df tbl = None.
Proof.
  induction df as [|row' df IH]; intros tbl row params Hrow Hparams Hbind Hrefuse;
    [by apply elem_of_nil in Hrow|].
  simpl. apply elem_of_cons in Hrow as [<-|Hrow].
  - rewrite Hparams. destruct Hbind as [vals ->]. by destruct Hrefuse as [msg ->].
  - destruct (params_of row') as [[params'|]|e]; [|by eapply IH|by eapply IH].
    destruct (bind_values now (values sql) params'); [|by eapply IH].
    destruct (violation sql params'); [done|]. by eapply IH.
Qed.

(** The committed record under a key depends on the record the table held
    under that key, and on nothing else of the table. *)
Lemma import_problems_local now tbl tbl' df key :
  tbl !! key = tbl' !! key ->
  committed (conn (import_problems now sql params_of (connect tbl) df)) !! key =
  committed (conn (import_problems now sql params_of (connect tbl') df)) !! key.
Proof.
  intros Hkey. rewrite !import_problems_conn. cbn [connect committed].
  destruct (run_table sql params_of now df tbl) as [t|] eqn:Hrun.
  - destruct (run_table sql params_of now df tbl') as [t'|] eqn:Hrun'.
    + simpl. rewrite (run_table_lookup sql params_of now key _ _ _ Hrun).
      rewrite (run_table_lookup sql params_of now key _ _ _ Hrun'). by rewrite Hkey.
    + by rewrite (run_table_refused sql params_of now now df tbl' tbl Hrun') in Hrun.
  - by rewrite (run_table_refused sql params_of now now df tbl tbl' Hrun).
Qed.

(** A record no row of the sheet writes is left as it was. *)
Lemma import_problems_other now tbl df key :
  Forall (fun row => ~ writes sql params_of now row key) df ->
  committed (conn (import_problems now sql params_of (connect tbl) df)) !! key = tbl !! key.
Proof.
  intros Hdf. rewrite import_problems_conn. cbn [connect committed].
  destruct (run_table sql params_of now df tbl) as [t|] eqn:Hrun; simpl; [|done].
  rewrite (run_table_lookup sql params_of now key _ _ _ Hrun). by apply run_entry_other.
Qed.

(** A record of the table stays, and keeps its columns outside the SET
    list. *)
Lemma import_problems_keeps now tbl df key old :
  tbl !! key = Some old ->
  exists record,
    committed (conn (import_problems now sql params_of (connect tbl) df)) !! key
      = Some record
    /\ forall c, c ∉ (do_update_set sql).*1 -> record !! c = old !! c.
Proof.
  intros Hold. rewrite import_problems_conn. cbn [connect committed].
  destruct (run_table sql params_of now df tbl) as [t|] eqn:Hrun; simpl; [|by exists old].
  rewrite (run_table_lookup sql params_of now key _ _ _ Hrun), Hold.
  destruct (run_entry_Some sql params_of now key df old) as (record & -> & Hkept).
  exists record. split; [done|]. intros c Hc. apply Hkept.
  by apply not_elem_of_list_to_map.
Qed.

(** A refused statement: the commit rolls the transaction back. *)
Lemma import_problems_refused now tbl df row params :
  row ∈ df -> params_of row = Ok (Some params) ->
  is_Some (bind_values now (values sql) params) ->
  is_Some (violation sql params) ->
  committed (conn (import_problems now sql params_of (connect tbl) df)) = tbl.
Proof.
  intros Hrow Hparams Hbind Hrefuse. rewrite import_problems_conn.
  by rewrite (run_table_refusing now df tbl row params).
Qed.

(** A sheet whose rows all raise the same exception before any statement
    is sent. *)
Lemma import_rows_all_raise now e df : forall idx st,
  Forall (fun row => params_of row = Raise e) df ->
  import_rows now sql params_of idx df st =
  {| conn := conn st; imported := imported st;
     skipped := skipped st + length df;
     errors := errors st ++ imap (fun i _ => ((idx + i)%nat, e)) df |}.
Proof.
  induction df as [|row df IH]; intros idx st Hdf; simpl.
  - rewrite Nat.add_0_r, app_nil_r. by destruct st.
  - apply Forall_cons in Hdf as [Hrow Hdf]. rewrite IH by done.
    unfold import_row, try_body. rewrite Hrow. simpl.
    rewrite Nat.add_0_r, <- app_assoc. simpl. f_equal; [lia|].
    f_equal. f_equal. apply imap_ext. intros i row' _. simpl. f_equal. lia.
Qed.

End Entries.

Section LastRow.
Context {R : FloatRepr} {D : Schema}.
Variable sql : statement.
Variable params_of : gmap string value -> result (option (list sqlval)).
Hypothesis Hsql : restamps sql.

(** The last row that writes a record decides its SET columns. *)
Lemma run_entry_last now key pre row post params vals o :
  params_of row = Ok (Some params) ->
  bind_values now (values sql) params = Some vals ->
  violation sql params = None ->
  key = conflict_key sql (proposed_row now sql vals) ->
  Forall (fun row' => ~ writes sql params_of now row' key) post ->
  exists record,
    run_entry sql params_of now key (pre ++ row :: post) o = Some record
    /\ forall c e,
         (list_to_map (do_update_set sql) : gmap string sql_expr) !! c = Some e ->
         c ≠ "updated_at" ->
         record !! c = Some (eval_set now (proposed_row now sql vals) e).
Proof.
  intros Hparams Hbind Haccept Hkey Hpost. unfold run_entry.
  rewrite foldl_app. simpl.
  unfold entry_step at 2. rewrite Hparams, Hbind, Haccept. cbv zeta.
  rewrite decide_True by done.
  pose proof (run_entry_other sql params_of now key post) as Hrest.
  unfold run_entry in Hrest. rewrite Hrest by done.
  eexists. split; [reflexivity|]. intros c e Hcol Hc.
  destruct (foldl (entry_step sql params_of now key) o pre) as [old|].
  - by apply updated_row_set.
  - destruct (Hsql now now params vals vals Hbind Hbind) as [_ Hset].
    rewrite Forall_forall in Hset.
    by destruct (Hset _ (elem_of_list_to_map_2 _ _ _ Hcol) Hc).
Qed.

Lemma import_problems_last now tbl pre row post params vals :
  accepted sql params_of (pre ++ row :: post) ->
  params_of row = Ok (Some params) ->
  bind_values now (values sql) params = Some vals ->
  Forall (fun row' =>
            ~ writes sql params_of now row' (conflict_key sql (proposed_row now sql vals)))
         post ->
  exists record,
    committed (conn (import_problems now sql params_of (connect tbl) (pre ++ row :: post)))
      !! conflict_key sql (proposed_row now sql vals) = Some record
    /\ forall c e,
         (list_to_map (do_update_set sql) : gmap string sql_expr) !! c = Some e ->
         c ≠ "updated_at" ->
         record !! c = Some (eval_set now (proposed_row now sql vals) e).
Proof.
  intros Hdf Hparams Hbind Hpost. rewrite import_problems_conn. cbn [connect committed].
  destruct (run_table_accepted sql params_of now _ tbl Hdf) as [t Hrun].
  rewrite Hrun. simpl. rewrite (run_table_lookup sql params_of now _ _ _ _ Hrun).
  apply run_entry_last with (params := params); try done.
  unfold accepted in Hdf. rewrite Forall_app, Forall_cons in Hdf.
  destruct Hdf as (_ & Hrow & _). by apply Hrow.
Qed.

End LastRow.

(** ** The two importers, continued *)

Ltac run_binds_with Hcell H :=
  repeat match type of H with
         | mbind _ ?x = _ =>
             first [ rewrite Hcell in H; cbn [mbind result_bind] in H
                   | destruct x; cbn [mbind result_bind] in H; [|discriminate H] ]
         end.

Section ImportersMore.
Context {R : FloatRepr} {D : Schema}.

Lemma pe_params_bind now m row params :
  pe_params m row = Ok (Some params) ->
  exists problem_id vals,
    problem_id_of row = Ok (Some problem_id)
    /\ bind_values now (values pe_sql) params = Some vals
    /\ conflict_key pe_sql (proposed_row now pe_sql vals) = [SText problem_id; SText "PE"].
Proof.
  intros (problem_id & rest & -> & Hlen & Hid)%pe_params_shape.
  destruct (pe_sql_key now problem_id rest Hlen) as (vals & Hbind & Hkey).
  by exists problem_id, vals.
Qed.

Lemma ib_params_bind now m row params :
  ib_params m row = Ok (Some params) ->
  exists problem_id vals,
    problem_id_of row = Ok (Some problem_id)
    /\ bind_values now (values ib_sql) params = Some vals
    /\ conflict_key ib_sql (proposed_row now ib_sql vals) = [SText problem_id; SText "IB"].
Proof.
  intros (problem_id & rest & -> & Hlen & Hid)%ib_params_shape.
  destruct (ib_sql_key now problem_id rest Hlen) as (vals & Hbind & Hkey).
  by exists problem_id, vals.
Qed.

Lemma pe_writes now m row key :
  writes pe_sql (pe_params m) now row key ->
  exists problem_id,
    problem_id_of row = Ok (Some problem_id) /\ key = [SText problem_id; SText "PE"].
Proof.
  intros (params & vals & Hparams & Hbind & ->).
  destruct (pe_params_bind now m row params Hparams) as (problem_id & vals' & Hid & Hbind' & Hkey).
  exists problem_id. split; [done|]. congruence.
Qed.

Lemma ib_writes now m row key :
  writes ib_sql (ib_params m) now row key ->
  exists problem_id,
    problem_id_of row = Ok (Some problem_id) /\ key = [SText problem_id; SText "IB"].
Proof.
  intros (params & vals & Hparams & Hbind & ->).
  destruct (ib_params_bind now m row params Hparams) as (problem_id & vals' & Hid & Hbind' & Hkey).
  exists problem_id. split; [done|]. congruence.
Qed.

(** A record of another environment is none of the importer's. *)
Lemma pe_import_other_environment now tbl m df key :
  key !! 1%nat ≠ Some (SText "PE") ->
  committed (conn (import_pe_problems now (connect tbl) m df)) !! key = tbl !! key.
Proof.
  intros Hkey. apply import_problems_other. apply Forall_forall.
  intros row _ (problem_id & _ & ->)%pe_writes. by apply Hkey.
Qed.

Lemma ib_import_other_environment now tbl m df key :
  key !! 1%nat ≠ Some (SText "IB") ->
  committed (conn (import_ib_problems now (connect tbl) m df)) !! key = tbl !! key.
Proof.
  intros Hkey. apply import_problems_other. apply Forall_forall.
  intros row _ (problem_id & _ & ->)%ib_writes. by apply Hkey.
Qed.

Lemma import_conn_connect now sql params_of c df :
  conn (import_problems now sql params_of c df) =
  connect (committed (conn (import_problems now sql params_of c df))).
Proof. unfold import_problems, finish, commit. cbn [conn]. by destruct (failed _). Qed.

Lemma bool_or_false_text row col s :
  row !! col = Some (VStr s) -> s ≠ "" -> bool_or_false row col = Ok (SBool true).
Proof.
  intros Hcell Hs. unfold bool_or_false, get, getitem, notna. rewrite Hcell.
  cbn. by rewrite bool_decide_eq_false_2.
Qed.

End ImportersMore.

Section Sheets.
Context {R : FloatRepr} {D : Schema}.

Lemma import_sheet_unfold s now c m df :
  import_sheet s now c m df = import_problems now (sheet_sql s) (sheet_params s m) c df.
Proof. by destruct s. Qed.

Lemma sheet_params_bind s now m row params :
  sheet_params s m row = Ok (Some params) ->
  exists problem_id vals,
    problem_id_of row = Ok (Some problem_id)
    /\ bind_values now (values (sheet_sql s)) params = Some vals
    /\ conflict_key (sheet_sql s) (proposed_row now (sheet_sql s) vals)
       = [SText problem_id; SText (environment s)].
Proof. destruct s; [apply pe_params_bind|apply ib_params_bind]. Qed.

Lemma sheet_writes s now m row key :
  writes (sheet_sql s) (sheet_params s m) now row key ->
  exists problem_id,
    problem_id_of row = Ok (Some problem_id)
    /\ key = [SText problem_id; SText (environment s)].
Proof. destruct s; [apply pe_writes|apply ib_writes]. Qed.

Lemma sheet_sql_restamps s : restamps (sheet_sql s).
Proof. destruct s; [apply pe_sql_restamps|apply ib_sql_restamps]. Qed.

Lemma import_sheet_other_environment s now tbl m df key :
  key !! 1%nat ≠ Some (SText (environment s)) ->
  committed (conn (import_sheet s now (connect tbl) m df)) !! key = tbl !! key.
Proof.
  destruct s; [apply pe_import_other_environment|apply ib_import_other_environment].
Qed.

Lemma import_sheet_conn s now c m df :
  conn (import_sheet s now c m df) =
  connect (committed (conn (import_sheet s now c m df))).
Proof. rewrite import_sheet_unfold. apply import_conn_connect. Qed.

(** X8. An import leaves every record alone that is not the record of one
    of its rows: a record whose key is not the ID of a row of the sheet
    together with the sheet's environment is, after the commit, what it was
    before, present or absent. *)
Theorem import_leaves_other_records s now tbl m df key :
  Forall (fun row => forall problem_id,
            problem_id_of row = Ok (Some problem_id) ->
            key ≠ [SText problem_id; SText (environment s)]) df ->
  committed (conn (import_sheet s now (connect tbl) m df)) !! key = tbl !! key.
Proof.
  intros Hdf. rewrite import_sheet_unfold. apply import_problems_other.
  eapply Forall_impl; [exact Hdf|]. intros row Hrow (problem_id & Hid & ->)%sheet_writes.
  by apply (Hrow problem_id).
Qed.

(** X9. An import deletes nothing and overwrites only the columns of its
    SET list: a record of the table is still there after the commit, with
    its [created_at] and every other column outside that list as before. *)
Theorem import_keeps_records s now tbl m df key old :
  tbl !! key = Some old ->
  exists record,
    committed (conn (import_sheet s now (connect tbl) m df)) !! key = Some record
    /\ record !! "created_at" = old !! "created_at"
    /\ forall c, c ∉ (do_update_set (sheet_sql s)).*1 -> record !! c = old !! c.
Proof.
  intros Hold. rewrite import_sheet_unfold.
  destruct (import_problems_keeps (sheet_sql s) (sheet_params s m) now tbl df key old Hold)
    as (record & Hrecord & Hkept).
  exists record. split; [done|]. split; [|done].
  apply Hkept. destruct s; cbn; rewrite !elem_of_cons, elem_of_nil;
    intros Hc; repeat destruct Hc as [Hc|Hc]; done.
Qed.


(** X11. One refused statement costs the whole sheet: when the database
    refuses the statement of some row, the commit after the loop rolls
    back, and the committed table is the one the import started from,
    although the rows before that one were counted as imported. *)
Theorem refused_statement_loses_the_sheet s now tbl m df row params :
  row ∈ df ->
  sheet_params s m row = Ok (Some params) ->
  is_Some (violation (sheet_sql s) params) ->
  committed (conn (import_sheet s now (connect tbl) m df)) = tbl.
Proof.
  intros Hrow Hparams Hrefuse. rewrite import_sheet_unfold.
  destruct (sheet_params_bind s now m row params Hparams) as (problem_id & vals & _ & Hbind & _).
  apply import_problems_refused with (row := row) (params := params); eauto.
Qed.

(** X12. The second reviewer is resolved and then stored nowhere: two sheets
    that differ in the [Reviewer 2] cell of one row only give the same
    counters, the same errors and the same database, provided the resolver
    returns for both cells. *)
Theorem reviewer2_is_not_stored s now c m pre row1 row2 post a b :
  (forall col, col ≠ "Reviewer 2" -> row1 !! col = row2 !! col) ->
  resolve_expert_name (get row1 "Reviewer 2") m = Ok a ->
  resolve_expert_name (get row2 "Reviewer 2") m = Ok b ->
  import_sheet s now c m (pre ++ row1 :: post) = import_sheet s now c m (pre ++ row2 :: post).
Proof.
  intros Hagree H1 H2.
  destruct (params_ignore_reviewer2 m row1 row2 a b Hagree H1 H2) as [Hpe Hib].
  destruct s; by apply import_problems_same_params.
Qed.

(** X13. A sheet that has no column [ID] imports nothing: every row raises
    [KeyError] and is counted as skipped, the error list names every row
    index, and the database is left as it was. *)
Theorem sheet_without_id_column s now tbl m df :
  Forall (fun row => row !! "ID" = None) df ->
  let r := import_sheet s now (connect tbl) m df in
  imported r = 0%nat /\ skipped r = length df
  /\ errors r = imap (fun i _ => (i, KeyError "ID")) df
  /\ committed (conn r) = tbl.
Proof.
  intros Hdf. cbv zeta. rewrite import_sheet_unfold. unfold import_problems.
  rewrite (import_rows_all_raise (sheet_sql s) (sheet_params s m) now (KeyError "ID")).
  - done.
  - eapply Forall_impl; [exact Hdf|]. intros row Hid.
    destruct (params_without_id_column m row Hid). by destruct s.
Qed.

(** X14. When a sheet holds an ID more than once, the last of its rows
    decides: if no statement is refused, the record of a row that no later
    row shares its ID with has, in every column of the SET list other than
    [updated_at], the value an import of that row alone into an empty table
    gives it. *)
Theorem last_row_decides s now tbl m pre row post problem_id params :
  accepted (sheet_sql s) (sheet_params s m) (pre ++ row :: post) ->
  sheet_params s m row = Ok (Some params) ->
  problem_id_of row = Ok (Some problem_id) ->
  Forall (fun row' => problem_id_of row' ≠ Ok (Some problem_id)) post ->
  exists record alone,
    committed (conn (import_sheet s now (connect tbl) m (pre ++ row :: post)))
      !! [SText problem_id; SText (environment s)] = Some record
    /\ committed (conn (import_sheet s now (connect ∅) m [row]))
      !! [SText problem_id; SText (environment s)] = Some alone
    /\ forall c, c ∈ (do_update_set (sheet_sql s)).*1 -> c ≠ "updated_at" ->
                 record !! c = alone !! c.
Proof.
  intros Hdf Hparams Hid Hpost. rewrite !import_sheet_unfold.
  destruct (sheet_params_bind s now m row params Hparams)
    as (problem_id' & vals & Hid' & Hbind & Hkey).
  assert (problem_id' = problem_id) as -> by congruence.
  destruct (import_problems_last (sheet_sql s) (sheet_params s m) (sheet_sql_restamps s)
              now tbl pre row post params vals Hdf Hparams Hbind)
    as (record & Hrecord & Hcols).
  { rewrite Hkey. eapply Forall_impl; [exact Hpost|].
    intros row' Hrow' (problem_id' & Hid'' & [= <-])%sheet_writes. by apply Hrow'. }
  destruct (import_problems_last (sheet_sql s) (sheet_params s m) (sheet_sql_restamps s)
              now ∅ [] row [] params vals)
    as (alone & Halone & Hcols'); [| done | done | done |].
  { unfold accepted in *. rewrite Forall_app, Forall_cons in Hdf.
    destruct Hdf as (_ & Hrow & _). by repeat constructor. }
  rewrite Hkey in Hrecord, Halone. exists record, alone.
  split; [done|]. split; [done|]. intros c Hc Hstamp.
  destruct ((list_to_map (do_update_set (sheet_sql s)) : gmap string sql_expr) !! c)
    as [e|] eqn:He.
  - by rewrite (Hcols c e), (Hcols' c e).
  - by apply not_elem_of_list_to_map in He.
Qed.

Lemma flag_param s m row params text :
  row !! "Separate Environment Init" = Some (VStr text) -> text ≠ "" ->
  sheet_params s m row = Ok (Some params) ->
  params !! 8%nat = Some (SBool true).
Proof.
  intros Hcell Htext Hparams.
  pose proof (bool_or_false_text row _ text Hcell Htext) as Hflag.
  destruct s; cbn [sheet_params] in Hparams.
  - unfold pe_params in Hparams.
    destruct (problem_id_of row) as [[problem_id|]|]; cbn [mbind result_bind] in Hparams;
      [|done|done].
    destruct problem_id; [done|].
    run_binds_with Hflag Hparams. by injection Hparams as <-.
  - unfold ib_params in Hparams.
    destruct (problem_id_of row) as [[problem_id|]|]; cbn [mbind result_bind] in Hparams;
      [|done|done].
    destruct problem_id; [done|].
    run_binds_with Hflag Hparams. by injection Hparams as <-.
Qed.

Lemma flag_column s now params vals :
  bind_values now (values (sheet_sql s)) params = Some vals ->
  proposed_row now (sheet_sql s) vals !! "separate_environment_init" = params !! 8%nat.
Proof.
  intros Hbind. apply bind_values_fill in Hbind as [-> Hlen]. destruct s; cbn in Hlen.
  - do 20 (destruct params as [|? params]; [discriminate Hlen|]).
    destruct params; [|discriminate Hlen]. clear Hlen.
    cbn [fill values pe_sql sheet_sql]. by listed.
  - do 19 (destruct params as [|? params]; [discriminate Hlen|]).
    destruct params; [|discriminate Hlen]. clear Hlen.
    cbn [fill values ib_sql sheet_sql]. by listed.
Qed.

(** X15. Any text in the cell [Separate Environment Init] counts as true,
    whatever it says: the record of a row with a non-empty text there, a
    row that no later row shares its ID with, has [separate_environment_init]
    TRUE after an import in which no statement is refused. *)
Theorem text_flag_is_stored_true s now tbl m pre row post problem_id params text :
  accepted (sheet_sql s) (sheet_params s m) (pre ++ row :: post) ->
  sheet_params s m row = Ok (Some params) ->
  problem_id_of row = Ok (Some problem_id) ->
  Forall (fun row' => problem_id_of row' ≠ Ok (Some problem_id)) post ->
  row !! "Separate Environment Init" = Some (VStr text) -> text ≠ "" ->
  exists record,
    committed (conn (import_sheet s now (connect tbl) m (pre ++ row :: post)))
      !! [SText problem_id; SText (environment s)] = Some record
    /\ record !! "separate_environment_init" = Some (SBool true).
Proof.
  intros Hdf Hparams Hid Hpost Hcell Htext. rewrite import_sheet_unfold.
  destruct (sheet_params_bind s now m row params Hparams)
    as (problem_id' & vals & Hid' & Hbind & Hkey).
  assert (problem_id' = problem_id) as -> by congruence.
  destruct (import_problems_last (sheet_sql s) (sheet_params s m) (sheet_sql_restamps s)
              now tbl pre row post params vals Hdf Hparams Hbind)
    as (record & Hrecord & Hcols).
  { rewrite Hkey. eapply Forall_impl; [exact Hpost|].
    intros row' Hrow' (problem_id' & Hid'' & [= <-])%sheet_writes. by apply Hrow'. }
  rewrite Hkey in Hrecord. exists record. split; [done|].
  rewrite (Hcols "separate_environment_init" (EXCLUDED "separate_environment_init"))
    by (by destruct s).
  cbn [eval_set]. rewrite (flag_column s now params vals Hbind).
  by rewrite (flag_param s m row params text Hcell Htext Hparams).
Qed.

End Sheets.

Lemma import_leaves_other_records_witness :
  committed (conn (@import_sheet any_repr plain_schema PE 50 (connect ib_table) scenario_map
                     [good_row]))
    !! [SText "P-2"; SText "IB"] = Some ib_record.
Proof.
  rewrite (@import_leaves_other_records any_repr plain_schema PE 50 ib_table scenario_map
             [good_row] [SText "P-2"; SText "IB"]).
  - vm_compute. reflexivity.
  - repeat constructor. intros problem_id Hid. vm_compute in Hid.
    injection Hid as <-. discriminate.
Defined.

Lemma import_keeps_records_witness :
  exists record,
    committed (conn (@import_sheet any_repr plain_schema PE 50 (connect old_table) scenario_map
                       [later_row]))
      !! [SText "P-2"; SText "PE"] = Some record
    /\ record !! "created_at" = Some (STimestamp 1).
Proof.
  destruct (@import_keeps_records any_repr plain_schema PE 50 old_table scenario_map
              [later_row] [SText "P-2"; SText "PE"] old_record)
    as (record & Hrecord & Hcreated & _); [vm_compute; reflexivity|].
  exists record. split; [exact Hrecord|]. rewrite Hcreated. vm_compute. reflexivity.
Defined.

Lemma last_row_decides_witness :
  exists record,
    committed (conn (@import_sheet any_repr plain_schema PE 50 (connect old_table) scenario_map
                       [good_row; later_row]))
      !! [SText "P-2"; SText "PE"] = Some record
    /\ record !! "spec_number" = Some (SInt 9)
    /\ record !! "status" = Some (SText "Done").
Proof.
  destruct (@last_row_decides any_repr plain_schema PE 50 old_table scenario_map
              [good_row] later_row [] "P-2" later_params)
    as (record & alone & Hrecord & Halone & Hcols).
  - repeat constructor.
  - vm_compute. reflexivity.
  - vm_compute. reflexivity.
  - constructor.
  - exists record. split; [exact Hrecord|].
    split; (rewrite Hcols; [| cbn; rewrite !elem_of_cons; auto 30 | discriminate]).
    + change (Some alone ≫= (fun r => r !! "spec_number") = Some (SInt 9)).
      rewrite <- Halone. vm_compute. reflexivity.
    + change (Some alone ≫= (fun r => r !! "status") = Some (SText "Done")).
      rewrite <- Halone. vm_compute. reflexivity.
Defined.

Lemma refused_statement_loses_the_sheet_witness :
  let r := @import_sheet any_repr int4_schema PE 50 (connect old_table) scenario_map
             [good_row; huge_spec_row] in
  committed (conn r) = old_table /\ imported r = 1%nat.
Proof.
  cbv zeta. split; [|vm_compute; reflexivity].
  apply (@refused_statement_loses_the_sheet any_repr int4_schema PE 50 old_table scenario_map
           [good_row; huge_spec_row] huge_spec_row huge_spec_params).
  - rewrite !elem_of_cons. auto.
  - vm_compute. reflexivity.
  - eexists. vm_compute. reflexivity.
Defined.

Lemma reviewer2_is_not_stored_witness :
  @import_sheet any_repr plain_schema PE 50 (connect ∅) scenario_map [other_reviewer2_row]
  = @import_sheet any_repr plain_schema PE 50 (connect ∅) scenario_map [unknown_reviewer2_row].
Proof.
  apply (@reviewer2_is_not_stored any_repr plain_schema PE 50 (connect ∅) scenario_map
           [] other_reviewer2_row unknown_reviewer2_row [] (Some 2) None).
  - intros col Hcol. unfold other_reviewer2_row, unknown_reviewer2_row.
    rewrite !list_to_map_cons, !lookup_insert. repeat case_decide; congruence.
  - vm_compute. reflexivity.
  - vm_compute. reflexivity.
Defined.

Lemma sheet_without_id_column_witness :
  let r := @import_sheet any_repr plain_schema IB 50 (connect old_table) scenario_map
             [no_id_column_row; no_id_column_row] in
  imported r = 0%nat /\ skipped r = 2%nat
  /\ errors r = [(0%nat, KeyError "ID"); (1%nat, KeyError "ID")]
  /\ committed (conn r) = old_table.
Proof.
  apply (@sheet_without_id_column any_repr plain_schema IB 50 old_table scenario_map
           [no_id_column_row; no_id_column_row]).
  repeat (apply Forall_cons; split; [vm_compute; reflexivity|]). apply Forall_nil_2.
Defined.

Lemma text_flag_is_stored_true_witness :
  exists record,
    committed (conn (@import_sheet any_repr plain_schema PE 50 (connect ∅) scenario_map
                       [text_flag_row]))
      !! [SText "P-4"; SText "PE"] = Some record
    /\ record !! "separate_environment_init" = Some (SBool true).
Proof.
  apply (@text_flag_is_stored_true any_repr plain_schema PE 50 ∅ scenario_map
           [] text_flag_row [] "P-4" text_flag_params "No").
  - repeat constructor.
  - vm_compute. reflexivity.
  - vm_compute. reflexivity.
  - constructor.
  - vm_compute. reflexivity.
  - discriminate.
Defined.

(** ** Counters and sources *)

Section Growth.
Context {R : FloatRepr} {D : Schema}.
Variable sql : statement.
Variable params_of : gmap string value -> result (option (list sqlval)).

Lemma upsert_size now vals tbl :
  (size tbl <= size (upsert now sql vals tbl) <= S (size tbl))%nat.
Proof.
  unfold upsert. cbv zeta.
  destruct (tbl !! conflict_key sql (proposed_row now sql vals)) as [old|] eqn:Hold.
  - rewrite map_size_insert_Some by eauto. lia.
  - rewrite map_size_insert_None by done. lia.
Qed.

(** A statement that runs adds at most one record, and a row that is not
    counted as imported adds none. *)
Lemma import_row_size now idx row st :
  let st' := import_row now sql params_of idx row st in
  committed (conn st') = committed (conn st)
  /\ (size (pending (conn st)) <= size (pending (conn st')))%nat
  /\ (size (pending (conn st')) + imported st <= size (pending (conn st)) + imported st')%nat.
Proof.
  cbv zeta. unfold import_row, try_body, execute.
  destruct (params_of row) as [[params|]|e]; cbn;
    [|split; [done|lia]|split; [done|lia]].
  destruct (bind_values now (values sql) params) as [vals|]; cbn; [|split; [done|lia]].
  destruct (failed (conn st)); cbn; [split; [done|lia]|].
  destruct (violation sql params); cbn; [split; [done|lia]|].
  pose proof (upsert_size now vals (pending (conn st))). split; [done|lia].
Qed.

Lemma import_rows_size now df : forall idx st,
  let st' := import_rows now sql params_of idx df st in
  committed (conn st') = committed (conn st)
  /\ (size (pending (conn st)) <= size (pending (conn st')))%nat
  /\ (size (pending (conn st')) + imported st <= size (pending (conn st)) + imported st')%nat.
Proof.
  induction df as [|row df IH]; intros idx st; cbv zeta; simpl; [split; [done|lia]|].
  destruct (IH (idx + 1)%nat (import_row now sql params_of idx row st)) as (Hc & Hle & Hge).
  destruct (import_row_size now idx row st) as (Hc' & Hle' & Hge').
  rewrite Hc, Hc'. split; [done|]. lia.
Qed.

Lemma import_rows_imported now df : forall idx st,
  (imported st <= imported (import_rows now sql params_of idx df st))%nat.
Proof.
  induction df as [|row df IH]; intros idx st; simpl; [lia|].
  etrans; [|apply IH]. unfold import_row.
  destruct (try_body now sql params_of (conn st) row) as [c [[]|e]]; cbn; lia.
Qed.

Lemma import_problems_size now tbl df :
  let r := import_problems now sql params_of (connect tbl) df in
  (size tbl <= size (committed (conn r)) <= size tbl + imported r)%nat.
Proof.
  cbv zeta. unfold import_problems, finish, commit. cbn [conn imported].
  destruct (import_rows_size now df 0%nat (start (connect tbl))) as (Hc & Hle & Hge).
  cbn [start connect conn committed pending imported] in Hc, Hle, Hge.
  destruct (failed _); cbn [connect committed].
  - rewrite Hc. lia.
  - lia.
Qed.

End Growth.

Section Source.
Context {R : FloatRepr} {D : Schema}.
Variable sql : statement.
Variable params_of : gmap string value -> result (option (list sqlval)).
Hypothesis Hsql : restamps sql.
Hypothesis Hstamp : forall now excluded, stamped now (set_values now sql excluded).
Hypothesis Hsource : ("source", Literal (SText "legacy_sheets")) ∈ do_update_set sql.

Lemma entry_step_legacy now key o row :
  (forall r, o = Some r -> legacy r) ->
  forall r, entry_step sql params_of now key o row = Some r -> legacy r.
Proof.
  intros Ho r. unfold entry_step.
  destruct (params_of row) as [[params|]|e]; [|by apply Ho|by apply Ho].
  destruct (bind_values now (values sql) params) as [vals|] eqn:Hbind; [|by apply Ho].
  destruct (violation sql params); [by apply Ho|].
  cbv zeta. case_decide; [|by apply Ho].
  intros [= <-]. destruct o as [old|].
  - apply (updated_row_stamped sql Hstamp now).
  - destruct (Hsql now now params vals vals Hbind Hbind) as [_ Hset].
    rewrite Forall_forall in Hset.
    by destruct (Hset _ Hsource).
Qed.

Lemma run_entry_legacy now key df : forall o,
  (forall r, o = Some r -> legacy r) ->
  forall r, run_entry sql params_of now key df o = Some r -> legacy r.
Proof.
  induction df as [|row df IH]; intros o Ho r; [by apply Ho|].
  unfold run_entry. simpl. apply IH. by apply entry_step_legacy.
Qed.

Lemma import_problems_legacy now tbl df :
  legacy_only tbl ->
  legacy_only (committed (conn (import_problems now sql params_of (connect tbl) df))).
Proof.
  intros Htbl. rewrite import_problems_conn. cbn [connect committed].
  destruct (run_table sql params_of now df tbl) as [t|] eqn:Hrun; simpl; [|done].
  intros key r Hr.
  rewrite (run_table_lookup sql params_of now key _ _ _ Hrun) in Hr.
  eapply run_entry_legacy; [|exact Hr]. intros old Hold. by apply (Htbl key).
Qed.

End Source.

Lemma count_by_source_legacy tbl :
  legacy_only tbl ->
  count_by_source tbl =
    if decide (tbl = ∅) then ∅ else {[ SText "legacy_sheets" := size tbl ]}.
Proof.
  unfold count_by_source. revert tbl.
  apply (map_fold_weak_ind
           (fun counts (m : gmap (list sqlval) (gmap string sqlval)) =>
              legacy_only m ->
              counts = if decide (m = ∅) then ∅
                       else {[ SText "legacy_sheets" := size m ]})).
  - intros _. by rewrite decide_True.
  - intros key record m counts Hkey IH Hm.
    apply map_Forall_insert in Hm as [Hrecord Hm]; [|done].
    rewrite (decide_False (P := <[key:=record]> m = ∅)) by apply insert_non_empty.
    rewrite map_size_insert_None by done.
    unfold source_of. rewrite Hrecord. cbn [default].
    rewrite (IH Hm). case_decide as Hempty.
    + subst m. by rewrite lookup_empty, insert_empty, map_size_empty.
    + by rewrite lookup_singleton_eq, insert_singleton_eq.
Qed.

Section MainFacts.
Context {R : FloatRepr} {D : Schema}.

Lemma import_sheet_legacy s now tbl m df :
  legacy_only tbl -> legacy_only (committed (conn (import_sheet s now (connect tbl) m df))).
Proof.
  rewrite import_sheet_unfold. apply import_problems_legacy.
  - apply sheet_sql_restamps.
  - destruct s; [apply pe_sql_stamps|apply ib_sql_stamps].
  - destruct s; [by apply (list_elem_of_lookup_2 _ 19)|by apply (list_elem_of_lookup_2 _ 18)].
Qed.

(** X16. The table never shrinks in an import and grows by at most the
    number of rows counted as imported. *)
Theorem import_grows_by_at_most_imported s now tbl m df :
  let r := import_sheet s now (connect tbl) m df in
  (size tbl <= size (committed (conn r)) <= size tbl + imported r)%nat.
Proof. cbv zeta. rewrite import_sheet_unfold. apply import_problems_size. Qed.

(** X17. What [main] leaves in the database, record by record: a record of
    environment PE is what the PE import alone makes of it, a record of
    environment IB what the IB import alone makes of it, and every other
    record is left as it was. *)
Theorem main_database experts tbl pe_df ib_df now_pe now_ib m key :
  get_expert_id_map experts = Ok m ->
  (main experts tbl (Ok pe_df) (Ok ib_df) now_pe now_ib).1 !! key =
    if decide (key !! 1%nat = Some (SText "PE"))
    then committed (conn (import_pe_problems now_pe (connect tbl) m pe_df)) !! key
    else if decide (key !! 1%nat = Some (SText "IB"))
    then committed (conn (import_ib_problems now_ib (connect tbl) m ib_df)) !! key
    else tbl !! key.
Proof.
  intros Hm. unfold main. rewrite Hm. cbn [fst].
  assert (conn (import_pe_problems now_pe (connect tbl) m pe_df)
          = connect (committed (conn (import_pe_problems now_pe (connect tbl) m pe_df))))
    as -> by apply import_conn_connect.
  case_decide as Hpe.
  - apply ib_import_other_environment. rewrite Hpe. discriminate.
  - case_decide as Hib.
    + apply import_problems_local. by apply pe_import_other_environment.
    + rewrite ib_import_other_environment by done.
      by apply pe_import_other_environment.
Qed.

(** X18. One expert whose name is empty or only whitespace stops the whole
    run: [main] raises [IndexError] while it builds the lookup table, before
    any sheet is read, and the database is left as it was. *)
Theorem main_fails_on_unnamed_expert experts tbl pe_sheet ib_sheet now_pe now_ib :
  unnamed experts ->
  main experts tbl pe_sheet ib_sheet now_pe now_ib = (tbl, Raise IndexError).
Proof.
  intros Hexperts. unfold main.
  assert (get_expert_id_map experts = Raise IndexError) as ->; [|done].
  by apply register_experts_Raise.
Qed.

(** X19. When the lookup table is built and both sheets are read, [main]
    returns, whatever the rows hold: no row and no refusal of the database
    stops it. It reports the number of keys of the lookup table, and the
    table has grown by at most the sum of the two counts it prints. *)
Theorem main_returns_and_counts experts tbl pe_df ib_df now_pe now_ib m :
  get_expert_id_map experts = Ok m ->
  exists T s,
    main experts tbl (Ok pe_df) (Ok ib_df) now_pe now_ib = (T, Ok s)
    /\ mappings s = size m
    /\ (size tbl <= size T <= size tbl + pe_count s + ib_count s)%nat.
Proof.
  intros Hm. unfold main. rewrite Hm. eexists _, _. split; [reflexivity|].
  cbn [mappings pe_count ib_count]. split; [done|].
  assert (conn (import_pe_problems now_pe (connect tbl) m pe_df)
          = connect (committed (conn (import_pe_problems now_pe (connect tbl) m pe_df))))
    as -> by apply import_conn_connect.
  pose proof (import_problems_size pe_sql (pe_params m) now_pe tbl pe_df) as Hpe.
  pose proof (import_problems_size ib_sql (ib_params m) now_ib
                (committed (conn (import_pe_problems now_pe (connect tbl) m pe_df))) ib_df)
    as Hib.
  cbv zeta in Hpe, Hib. unfold import_pe_problems, import_ib_problems in *. lia.
Qed.

(** X20. If every record of the table came from the legacy sheets before
    the run, as in an empty table, the database summary [main] prints at the
    end has one line, [legacy_sheets] with the number of records of the
    table, or no line when the table is still empty. *)
Theorem main_summary_of_legacy_table experts tbl pe_df ib_df now_pe now_ib m :
  get_expert_id_map experts = Ok m ->
  legacy_only tbl ->
  exists T s,
    main experts tbl (Ok pe_df) (Ok ib_df) now_pe now_ib = (T, Ok s)
    /\ by_source s = if decide (T = ∅) then ∅
                     else {[ SText "legacy_sheets" := size T ]}.
Proof.
  intros Hm Htbl. unfold main. rewrite Hm. eexists _, _. split; [reflexivity|].
  cbn [by_source].
  assert (conn (import_pe_problems now_pe (connect tbl) m pe_df)
          = connect (committed (conn (import_pe_problems now_pe (connect tbl) m pe_df))))
    as -> by apply import_conn_connect.
  apply count_by_source_legacy.
  apply (import_sheet_legacy IB). by apply (import_sheet_legacy PE).
Qed.

End MainFacts.

Lemma main_database_witness :
  (@main any_repr plain_schema scenario_roster ib_table (Ok [good_row]) (Ok [later_row]) 50 60).1
    !! [SText "P-2"; SText "PE"]
  = committed (conn (@import_pe_problems any_repr plain_schema 50 (connect ib_table)
                       scenario_map [good_row])) !! [SText "P-2"; SText "PE"].
Proof.
  rewrite (@main_database any_repr plain_schema scenario_roster ib_table [good_row] [later_row]
             50 60 scenario_map [SText "P-2"; SText "PE"]) by (vm_compute; reflexivity).
  reflexivity.
Defined.

Lemma main_fails_on_unnamed_expert_witness :
  @main any_repr plain_schema blank_roster old_table (Ok [good_row]) (Ok [later_row]) 50 60
  = (old_table, Raise IndexError).
Proof.
  apply (@main_fails_on_unnamed_expert any_repr plain_schema blank_roster old_table).
  apply Exists_cons_tl, Exists_cons_hd. vm_compute. reflexivity.
Defined.

Lemma main_returns_and_counts_witness :
  exists T s,
    @main any_repr plain_schema scenario_roster ∅ (Ok [good_row; later_row]) (Ok [good_row]) 50 60
      = (T, Ok s)
    /\ mappings s = 4%nat
    /\ (0 <= size T <= 0 + pe_count s + ib_count s)%nat.
Proof.
  destruct (@main_returns_and_counts any_repr plain_schema scenario_roster ∅
              [good_row; later_row] [good_row] 50 60 scenario_map)
    as (T & s & Hmain & Hmappings & Hsize); [vm_compute; reflexivity|].
  exists T, s. split; [exact Hmain|]. split; [|exact Hsize].
  rewrite Hmappings. vm_compute. reflexivity.
Defined.

Lemma main_summary_of_legacy_table_witness :
  exists T s,
    @main any_repr plain_schema scenario_roster ∅ (Ok [good_row; later_row]) (Ok [good_row]) 50 60
      = (T, Ok s)
    /\ by_source s = if decide (T = ∅) then ∅
                     else {[ SText "legacy_sheets" := size T ]}.
Proof.
  apply (@main_summary_of_legacy_table any_repr plain_schema scenario_roster ∅
           [good_row; later_row] [good_row] 50 60 scenario_map).
  - vm_compute. reflexivity.
  - apply map_Forall_empty.
Defined.

(** ** A row that fails *)

Section RowFailure.
Context {R : FloatRepr} {D : Schema}.
Variable now : Z.
Variable sql : statement.
Variable params_of : gmap string value -> result (option (list sqlval)).




End RowFailure.

Section RowFailureOnSheets.
Context {R : FloatRepr} {D : Schema}.


End RowFailureOnSheets.


